(** * 1457-solver: the checksum-equation solvers of [PCHealSearcher.py]
      and [1457_solver.py]

    Python integers are unbounded, so every value is a [Z]; the 16-bit
    wrap-around is written by the code itself with [&] masks, which are
    kept as [Z.land].  Python's [//] and [%] are floor division and the
    remainder that takes the divisor's sign: [Z.div] and [Z.modulo].
    [set[int]] is a [gset Z].  A [dict] whose iteration order is observed
    ([round_1], [round_1_map]) is an insertion-ordered association list;
    a [dict] that is only looked up and extended ([move_pps], [round_2],
    [round_2_to_round_1]) is a [gmap]. *)

From Stdlib Require Import ZArith Lia String Ascii.
From stdpp Require Import base option list gmap sets sorting.

Local Open Scope Z_scope.

(** ** Python runtime pieces shared by both scripts *)

Module Py.

(** Exceptions the modelled code raises. *)
Inductive exn : Type :=
| KeyError (key : Z)
| ValueError (msg : string) (arg : Z).

(** Outcome of a call: a value, a raised exception, or [Fuel] when the
    model of a [while] loop was given too few iterations. *)
Inductive res (A : Type) : Type :=
| Ret (x : A)
| Raise (e : exn)
| Fuel.
Arguments Ret {A} x.
Arguments Raise {A} e.
Arguments Fuel {A}.

Definition bind {A B : Type} (m : res A) (k : A -> res B) : res B :=
  match m with
  | Ret x => k x
  | Raise e => Raise e
  | Fuel => Fuel
  end.

(** [for x in l: st = body(st, x)] where the body may raise. *)
Fixpoint for_each {S B : Type} (body : S -> B -> res S) (l : list B) (st : S) : res S :=
  match l with
  | [] => Ret st
  | x :: l' => bind (body st x) (for_each body l')
  end.

(** [d[k]] on a [dict[int, V]]: raises [KeyError(k)] on a miss. *)
Definition getitem {V : Type} (d : gmap Z V) (k : Z) : res V :=
  match d !! k with
  | Some v => Ret v
  | None => Raise (KeyError k)
  end.

(** [range(start, stop, step)] for a positive [step]. *)
Definition range (start stop step : Z) : list Z :=
  (fun i => start + step * i) <$> seqZ 0 ((stop - start + step - 1) / step).

(** [sorted(s)] of a set of integers. *)
Definition sorted (s : gset Z) : list Z := merge_sort Z.le (elements s).

(** Insertion-ordered dictionaries with integer keys. *)
Section odict.
Context {V : Type}.

Fixpoint od_get (k : Z) (d : list (Z * V)) : option V :=
  match d with
  | [] => None
  | (k', v) :: d' => if decide (k' = k) then Some v else od_get k d'
  end.

(** [k in d] *)
Definition od_mem (k : Z) (d : list (Z * V)) : bool :=
  match od_get k d with Some _ => true | None => false end.

(** [d[k] = v]: an existing key keeps its position, a new key goes
    last. *)
Fixpoint od_set (k : Z) (v : V) (d : list (Z * V)) : list (Z * V) :=
  match d with
  | [] => [(k, v)]
  | (k', v') :: d' =>
      if decide (k' = k) then (k, v) :: d' else (k', v') :: od_set k v d'
  end.
End odict.

End Py.

Import Py.

#[global] Instance res_ret : MRet res := @Ret.
#[global] Instance res_bind : MBind res := fun A B k m => bind m k.

(** ** PCHealSearcher.py *)

Module PCHealSearcher.

(** [calc_move_pp] *)
Definition calc_move_pp (base_pp pp_ups : Z) : Z :=
  (base_pp + ((base_pp / 5) * pp_ups)) mod 256.

Definition MAX_CHECKSUM : Z := 0xFFFF * 24.

(** Body of the inner [for checksum in range(...)] of [get_round_1]. *)
Definition probe_checksum (key_highs : gset Z) (key_low : Z)
    (round_1 : list (Z * list Z)) (checksum : Z) : list (Z * list Z) :=
  let key_high := (checksum - (key_low * 12)) / 12 in
  if decide (key_high ∈ key_highs) then
    let round_1 :=
      if od_mem key_low round_1 then round_1 else od_set key_low [] round_1 in
    od_set key_low (default [] (od_get key_low round_1) ++ [key_high]) round_1
  else round_1.

(** [get_round_1] *)
Definition get_round_1 (key_lows key_highs : gset Z) : list (Z * list Z) :=
  fold_left
    (fun round_1 key_low =>
       fold_left (probe_checksum key_highs key_low)
                 (range 0 MAX_CHECKSUM (Z.shiftl 3 16)) round_1)
    (sorted key_lows) [].

(** The left-hand side both tests of the bit loop evaluate:
    [11 * solution + (pps_high ^ solution)]. *)
Definition equation (pps_high solution : Z) : Z :=
  11 * solution + Z.lxor pps_high solution.

(** Body of [for solution in solutions] (lines 91-98). *)
Definition expand_solution (pps_high a one_hot mask : Z)
    (new_solutions : list Z) (solution : Z) : list Z :=
  let new_solutions :=
    if decide (Z.land (equation pps_high solution) mask = Z.land a mask)
    then new_solutions ++ [solution] else new_solutions in
  let solution := Z.lor solution one_hot in
  if decide (Z.land (equation pps_high solution) mask = Z.land a mask)
  then new_solutions ++ [solution] else new_solutions.

(** One pass of the [while] body: the next value of [solutions]. *)
Definition expand_round (pps_high a one_hot mask : Z) (solutions : list Z) : list Z :=
  fold_left (expand_solution pps_high a one_hot mask) solutions [].

(** [while one_hot < (1 << 16)] (lines 89-102). *)
Fixpoint expand_loop (fuel : nat) (pps_high a : Z)
    (solutions : list Z) (one_hot mask : Z) : res (list Z) :=
  match fuel with
  | O => Fuel
  | S fuel' =>
      if decide (one_hot < Z.shiftl 1 16) then
        expand_loop fuel' pps_high a
          (expand_round pps_high a one_hot mask solutions)
          (Z.shiftl one_hot 1) (Z.lor (Z.shiftl mask 1) 1)
      else Ret solutions
  end.

(** Iterations granted to the bit loop: 16 passes and the exit test. *)
Definition loop_fuel : nat := 17.

(** Lines 83-102: the solver started from [solutions = [0]],
    [one_hot = 1], [mask = 1]. *)
Definition solve_bits (pps_high a : Z) : res (list Z) :=
  expand_loop loop_fuel pps_high a [0] 1 1.

(** The same loop with a counter of evaluations of [equation]: each
    solution carried into a pass is tested twice. *)
Fixpoint expand_loop_count (fuel : nat) (pps_high a : Z)
    (solutions : list Z) (one_hot mask : Z) (evals : nat) : res (list Z * nat) :=
  match fuel with
  | O => Fuel
  | S fuel' =>
      if decide (one_hot < Z.shiftl 1 16) then
        expand_loop_count fuel' pps_high a
          (expand_round pps_high a one_hot mask solutions)
          (Z.shiftl one_hot 1) (Z.lor (Z.shiftl mask 1) 1)
          (evals + 2 * length solutions)%nat
      else Ret (solutions, evals)
  end.

Definition solve_bits_count (pps_high a : Z) : res (list Z * nat) :=
  expand_loop_count loop_fuel pps_high a [0] 1 1 0%nat.

(** The two output dictionaries [(round_2, round_2_to_round_1)]. *)
Record maps : Type := Maps {
  round_2 : gmap Z Z;
  round_2_to_round_1 : gmap Z (Z * Z)
}.

(** [for solution in solutions] of lines 103-109. *)
Fixpoint record_solution (key_highs : gset Z) (low1 high1 low2 : Z)
    (solutions : list Z) (st : maps) : maps :=
  match solutions with
  | [] => st
  | solution :: rest =>
      if decide (solution ∉ key_highs) then
        record_solution key_highs low1 high1 low2 rest st
      else if decide (low2 ∉ dom (round_2 st)) then
        Maps (<[low2 := solution]> (round_2 st))
             (<[low2 := (low1, high1)]> (round_2_to_round_1 st))
      else st
  end.

(** Body of [for low2 in key_lows] (lines 80-109). *)
Definition solve_low2 (key_highs : gset Z)
    (low1 high1 checksum pps_low pps_high : Z) (st : maps) (low2 : Z) : res maps :=
  if decide (low2 ∈ dom (round_2 st)) then Ret st
  else
    let a := checksum - (11 * low2) - Z.lxor pps_low low2 in
    solutions ← solve_bits pps_high a;
    Ret (record_solution key_highs low1 high1 low2 solutions st).

(** The packed PP words of lines 61-74, from the base PPs of the two
    moves. *)
Definition pp_ups (low1 i : Z) : Z := Z.land (Z.shiftr low1 (2 * i)) 3.

Definition pack (hi lo : Z) : Z := Z.lor (Z.shiftl hi 8) (Z.shiftl lo 0).

Definition packed_low (low1 base_low base_high : Z) : Z :=
  pack (calc_move_pp base_high (pp_ups low1 1)) (calc_move_pp base_low (pp_ups low1 0)).

Definition packed_high (low1 base_low base_high : Z) : Z :=
  pack (calc_move_pp base_high (pp_ups low1 3)) (calc_move_pp base_low (pp_ups low1 2)).

(** Body of [for low1, high1 in round_1] (lines 58-109). *)
Definition solve_pair (key_lows : list Z) (key_highs : gset Z)
    (move_pps : gmap Z Z) (st : maps) (pair : Z * Z) : res maps :=
  let '(low1, high1) := pair in
  if decide (low1 = 0) then Ret st
  else
    base_low ← getitem move_pps low1;
    base_high ← getitem move_pps high1;
    let pps_low := packed_low low1 base_low base_high in
    let pps_high := packed_high low1 base_low base_high in
    let checksum := (low1 * 11) + (high1 * 11) + pps_low + pps_high in
    let pps_low := Z.lxor pps_low low1 in
    let pps_high := Z.lxor pps_high high1 in
    for_each (solve_low2 key_highs low1 high1 checksum pps_low pps_high)
             key_lows st.

(** The generator [round_1] of lines 52-56. *)
Definition round_1_pairs (round_1 : list (Z * list Z)) : list (Z * Z) :=
  '(key_low, _key_highs) ← round_1;
  key_high ← _key_highs;
  [(key_low, key_high)].

(** [get_round_2] *)
Definition get_round_2 (xor_values : gset Z) (key_lows : list Z)
    (key_highs : gset Z) (move_pps : gmap Z Z) : res maps :=
  for_each (solve_pair key_lows key_highs move_pps)
           (round_1_pairs (get_round_1 xor_values xor_values))
           (Maps ∅ ∅).

(** [{x for x in xor_values if x & 0x4000 == 0}] (lines 135 and 140). *)
Definition no_egg (xor_values : gset Z) : gset Z :=
  filter (fun x => Z.land x 0x4000 = 0) xor_values.

(** What [main] computes (lines 133-143) and then prints. *)
Record report : Type := Report {
  report_round_1 : list (Z * list Z);
  report_round_2 : gmap Z Z;
  round_3_needed : gset Z
}.

(** [main] from the parsed inputs to the values it reports.  The list
    comprehension of line 139 walks the set in an order Python does not
    specify; [elements] fixes one. *)
Definition main (xor_values : gset Z) (move_pps : gmap Z Z) : res report :=
  let round_1 := get_round_1 xor_values (no_egg xor_values) in
  st ← get_round_2 xor_values
         (filter (fun x => od_mem x round_1 = false) (elements xor_values))
         (no_egg xor_values) move_pps;
  let round_2 := round_2 st in
  let round_3_needed := xor_values ∖ (list_to_set round_1.*1 ∪ dom round_2) in
  Ret (Report round_1 round_2 round_3_needed).

End PCHealSearcher.

Import PCHealSearcher.

(** ** 1457_solver.py *)

Module Solver.

(** The test of line 21 on a candidate checksum total [i]. *)
Definition accepts (xor_values : gset Z) (i : Z) : bool :=
  bool_decide (i mod 12 = 0)
  && bool_decide (i / 12 ∈ xor_values)
  && bool_decide (Z.land (i / 12) 0x4000 = 0).

(** [for i in range(...)] of lines 20-23, with its [break]. *)
Fixpoint probe_first (xor_values : gset Z) (xor_value : Z)
    (candidates : list Z) (checksum_map : list (Z * Z)) : list (Z * Z) :=
  match candidates with
  | [] => checksum_map
  | i :: rest =>
      if accepts xor_values i
      then od_set xor_value (i / 12) checksum_map
      else probe_first xor_values xor_value rest checksum_map
  end.

(** [build_round_1_map] *)
Definition build_round_1_map (xor_values : gset Z) : list (Z * Z) :=
  fold_left
    (fun checksum_map xor_value =>
       let remainder := Z.land (0x10000 - (xor_value * 12)) 0xFFFF in
       probe_first xor_values xor_value
                   (range remainder 0xC0000 0x10000) checksum_map)
    (sorted xor_values) [].

Definition MASK_16 : Z := Z.shiftl 1 16 - 1.

(** Body of [for new_key_high in xor_values] (lines 46-55). *)
Definition try_second (target_species key_low key_high : Z)
    (messages : list (list (Z * Z))) (new_key_high : Z) : list (list (Z * Z)) :=
  let base_message := [(key_low, key_high)] in
  let target_checksum := Z.shiftl 1 16 - key_high in
  let encrypted_item := key_high in
  if decide (Z.land new_key_high 0x4000 = 0x4000) then messages
  else
    let message := base_message in
    let checksum :=
      Z.land ((target_species * 12)
              + (new_key_high * 11)
              + Z.lxor new_key_high encrypted_item) MASK_16 in
    if decide (checksum = target_checksum)
    then messages ++ [message ++ [(target_species, new_key_high)]]
    else messages.

(** [calc_messages].  A set is iterated in an order Python does not
    specify; [elements] fixes one. *)
Definition calc_messages (target_species : Z) (xor_values : gset Z)
    (round_1_map : list (Z * Z)) : res (list (list (Z * Z))) :=
  if decide (target_species ∉ xor_values) then
    Raise (ValueError "Species cannot be generated with provided xor map"
                      target_species)
  else
    let messages : list (list (Z * Z)) := [] in
    let messages :=
      match od_get target_species round_1_map with
      | Some key_high => messages ++ [[(target_species, key_high)]]
      | None => messages
      end in
    Ret (fold_left
           (fun messages '(key_low, key_high) =>
              fold_left (try_second target_species key_low key_high)
                        (elements xor_values) messages)
           round_1_map messages).

(** One hexadecimal digit, upper case. *)
Definition hex_digit (d : Z) : ascii :=
  match d with
  | 0 => "0" | 1 => "1" | 2 => "2" | 3 => "3" | 4 => "4" | 5 => "5"
  | 6 => "6" | 7 => "7" | 8 => "8" | 9 => "9" | 10 => "A" | 11 => "B"
  | 12 => "C" | 13 => "D" | 14 => "E" | _ => "F"
  end%char.

(** The digits of a non-negative integer, most significant first, put
    in front of [acc]. *)
Fixpoint to_hex (fuel : nat) (n : Z) (acc : string) : string :=
  match fuel with
  | O => acc
  | S fuel' =>
      let acc := String (hex_digit (n mod 16)) acc in
      if decide (n / 16 = 0) then acc else to_hex fuel' (n / 16) acc
  end.

Definition hex (n : Z) : string := to_hex (S (Z.to_nat (Z.log2 n))) n "".

(** [s.zfill]-style padding with zeros on the left up to [width]. *)
Definition zero_pad (width : nat) (s : string) : string :=
  (string_of_list_ascii (replicate (width - String.length s) "0"%char) ++ s)%string.

(** [f"{x:04X}"]: upper-case hexadecimal, zero-padded to 4 characters,
    the sign of a negative number counted in the width. *)
Definition format_04X (x : Z) : string :=
  if decide (x < 0) then String "-" (zero_pad 3 (hex (- x)))
  else zero_pad 4 (hex x).

(** The row [write_results] builds for one chain (lines 64-66). *)
Definition result_row (result : list (Z * Z)) : list string :=
  '(key_low, key_high) ← result; [format_04X key_low; format_04X key_high].

(** [write_results]: the rows handed to the CSV writer, header first. *)
Definition write_results (results : list (list (Z * Z))) : list (list string) :=
  ["Mail 1 Key Low"; "Mail 1 Key High"; "Mail 2 Key Low"; "Mail 2 Key High"]%string
  :: (result_row <$> results).

(** [main] from the parsed arguments to the rows written. *)
Definition main (target_species : Z) (xor_values : gset Z) : res (list (list string)) :=
  let round_1_map := build_round_1_map xor_values in
  results ← calc_messages target_species xor_values round_1_map;
  Ret (write_results results).

End Solver.

Import Solver.

(** ** The brute-force scan the bit loop is compared with *)

(** Follows the spec's words: iterate [y] from 0x0000 to 0xFFFF and keep
    the values at which [11*y + (y XOR m)] equals the target modulo
    0x10000. *)
Definition brute_force (m a : Z) : list Z :=
  filter (fun y => (11 * y + Z.lxor y m) mod 0x10000 = a mod 0x10000)
         (range 0 0x10000 1).

(** ** Notions the statements use *)

(** The solutions carried into pass [k] of the bit loop, where
    [one_hot = 2^k] and [mask = 2^(k+1) - 1]. *)
Fixpoint carried (pps_high a : Z) (k : nat) : list Z :=
  match k with
  | O => [0]
  | S k' =>
      expand_round pps_high a (2 ^ Z.of_nat k') (Z.ones (Z.of_nat k' + 1))
                   (carried pps_high a k')
  end.

(** A value solves the equation of the bit loop up to its low [k] bits. *)
Definition solves_mod (pps_high a k y : Z) : Prop :=
  0 <= y < 2 ^ k /\ equation pps_high y mod 2 ^ k = a mod 2 ^ k.

(** What pass [k] keeps of one carried solution: both extensions or
    neither (see [expand_solution_kept]). *)
Definition kept (pps_high a : Z) (k : nat) (s : Z) : list Z :=
  if decide (equation pps_high s mod 2 ^ (Z.of_nat k + 1) = a mod 2 ^ (Z.of_nat k + 1))
  then [s; s + 2 ^ Z.of_nat k] else [].

(** The [key_high] values the inner loop of [get_round_1] accepts for one
    [key_low], in the order the checksum totals are walked. *)
Definition highs_of (key_highs : gset Z) (key_low : Z) : list Z :=
  filter (fun key_high => key_high ∈ key_highs)
         ((fun checksum => (checksum - (key_low * 12)) / 12)
            <$> range 0 MAX_CHECKSUM (Z.shiftl 3 16)).

(** The entry [get_round_1] adds for one [key_low]: none when no
    [key_high] was accepted. *)
Definition round_1_entry (key_highs : gset Z) (key_low : Z) : list (Z * list Z) :=
  match highs_of key_highs key_low with
  | [] => []
  | _ :: _ => [(key_low, highs_of key_highs key_low)]
  end.

(** What line 21 of [1457_solver.py] establishes for the pair it stores. *)
Definition stored_ok (xor_values : gset Z) (xor_value high : Z) : Prop :=
  (12 * xor_value + 12 * high) mod 0x10000 = 0
  /\ high ∈ xor_values /\ Z.land high 0x4000 = 0.

(** No length-2 chain starts with a pair whose [key_high] is 0. *)
Definition no_zero_chain (messages : list (list (Z * Z))) : Prop :=
  forall key_low second, [(key_low, 0); second] ∉ messages.

(** The two-step checksum equation of a chain [(low1, high1)],
    [(low2, high2)] with packed PP words [P_low], [P_high]. *)
Definition chain_equation (P_low P_high low1 high1 low2 high2 : Z) : Prop :=
  (11 * low2 + Z.lxor (Z.lxor P_low low1) low2
   + 11 * high2 + Z.lxor (Z.lxor P_high high1) high2) mod 2 ^ 16
  = (11 * low1 + 11 * high1 + P_low + P_high) mod 2 ^ 16.

(** Both dictionaries have the same keys. *)
Definition same_keys (st : maps) : Prop :=
  dom (round_2 st) = dom (round_2_to_round_1 st).

(** Every entry of [st] is still in [st'], unchanged. *)
Definition extends (st st' : maps) : Prop :=
  round_2 st ⊆ round_2 st' /\ round_2_to_round_1 st ⊆ round_2_to_round_1 st'.

(** Every recorded [low2] has a back-reference to one of [pairs], whose
    low is not 0, and with it solves the two-step equation. *)
Definition chain_ok (pairs : list (Z * Z)) (key_highs : gset Z)
    (move_pps : gmap Z Z) (st : maps) : Prop :=
  forall low2 high2, round_2 st !! low2 = Some high2 ->
    exists low1 high1 base_low base_high,
      round_2_to_round_1 st !! low2 = Some (low1, high1)
      /\ (low1, high1) ∈ pairs
      /\ low1 <> 0
      /\ move_pps !! low1 = Some base_low
      /\ move_pps !! high1 = Some base_high
      /\ high2 ∈ key_highs
      /\ chain_equation (packed_low low1 base_low base_high)
                        (packed_high low1 base_low base_high)
                        low1 high1 low2 high2.

(** A round-1 pair whose pass of the outer loop of [get_round_2] raises:
    its low is not 0 and a base PP is missing. *)
Definition missing_pp (move_pps : gmap Z Z) (pair : Z * Z) : Prop :=
  pair.1 <> 0 /\ (move_pps !! pair.1 = None \/ move_pps !! pair.2 = None).

(** The value the loop of lines 20-23 of [1457_solver.py] stores for
    [xor_value]: that of the first accepted total, if there is one. *)
Definition first_accepted (xor_values : gset Z) (xor_value : Z) : option Z :=
  (fun i => i / 12)
    <$> find (accepts xor_values)
             (range (Z.land (0x10000 - (xor_value * 12)) 0xFFFF) 0xC0000 0x10000).

(** The test of lines 46-53 of [1457_solver.py] on a candidate second
    key high, for a first pair with this [key_high]. *)
Definition second_ok (target_species key_high new_key_high : Z) : Prop :=
  Z.land new_key_high 0x4000 <> 0x4000
  /\ Z.land ((target_species * 12) + (new_key_high * 11)
             + Z.lxor new_key_high key_high) MASK_16
     = Z.shiftl 1 16 - key_high.

(** * Proofs *)

(** ** Bit facts used by the solver *)

Section bits.
Implicit Types k s x y m : Z.

Lemma shiftl_1_16 : Z.shiftl 1 16 = 2 ^ 16.
Proof. reflexivity. Qed.

Lemma one_hot_next k : 0 <= k -> Z.shiftl (2 ^ k) 1 = 2 ^ (k + 1).
Proof. intros Hk. rewrite Z.shiftl_mul_pow2, Z.pow_add_r by lia. lia. Qed.

Lemma mask_next k : 0 <= k -> Z.lor (Z.shiftl (Z.ones k) 1) 1 = Z.ones (k + 1).
Proof.
  intros Hk. apply Z.bits_inj'. intros n Hn.
  rewrite Z.lor_spec, Z.shiftl_spec by lia.
  destruct (decide (n = 0)) as [->|Hn0].
  - rewrite Z.testbit_neg_r, Z.ones_spec_low by lia. reflexivity.
  - replace (Z.testbit 1 n) with false
      by (symmetry; apply (Z.bits_above_log2 1 n); simpl; lia).
    rewrite orb_false_r.
    destruct (decide (n - 1 < k)).
    + rewrite !Z.ones_spec_low by lia. reflexivity.
    + rewrite !Z.ones_spec_high by lia. reflexivity.
Qed.

Lemma testbit_small k s : 0 <= s < 2 ^ k -> Z.testbit s k = false.
Proof.
  intros Hs. destruct (decide (0 <= k)) as [Hk|Hk].
  - rewrite <- (Z.mod_small s (2 ^ k)) by lia.
    apply Z.mod_pow2_bits_high. lia.
  - apply Z.testbit_neg_r. lia.
Qed.

Lemma land_one_hot_small k s : 0 <= k -> 0 <= s < 2 ^ k -> Z.land s (2 ^ k) = 0.
Proof.
  intros Hk Hs. apply Z.bits_inj'. intros n Hn.
  rewrite Z.land_spec, Z.bits_0, Z.pow2_bits_eqb by lia.
  destruct (Z.eqb_spec k n) as [->|]; [|apply andb_false_r].
  rewrite testbit_small by lia. reflexivity.
Qed.

(** [solution |= one_hot] adds the bit when it is above the solution. *)
Lemma lor_one_hot k s : 0 <= k -> 0 <= s < 2 ^ k -> Z.lor s (2 ^ k) = s + 2 ^ k.
Proof.
  intros Hk Hs.
  rewrite <- Z.lxor_lor, Z.add_nocarry_lxor by (apply land_one_hot_small; lia).
  reflexivity.
Qed.

Lemma lxor_mod m y k :
  0 <= k -> Z.lxor m y mod 2 ^ k = Z.lxor (m mod 2 ^ k) (y mod 2 ^ k).
Proof.
  intros Hk. rewrite <- !Z.land_ones by lia.
  apply Z.bits_inj'. intros n Hn.
  rewrite ?Z.land_spec, ?Z.lxor_spec, ?Z.land_spec.
  destruct (Z.testbit (Z.ones k) n); rewrite ?andb_true_r, ?andb_false_r; reflexivity.
Qed.

(** The low [k] bits of the left-hand side depend on the low [k] bits
    of the unknown only. *)
Lemma equation_mod m y k :
  0 <= k -> equation m y mod 2 ^ k = equation m (y mod 2 ^ k) mod 2 ^ k.
Proof.
  intros Hk. unfold equation.
  rewrite (Z.add_mod (11 * y)), (Z.add_mod (11 * (y mod 2 ^ k))) by lia.
  rewrite (Z.mul_mod 11 (y mod 2 ^ k)), (Z.mul_mod 11 y) by lia.
  rewrite !(lxor_mod m) by lia.
  rewrite !Z.mod_mod by lia. reflexivity.
Qed.

(** XOR with a single bit adds or removes that bit. *)
Lemma lxor_one_hot_mod x k :
  0 <= k -> Z.lxor x (2 ^ k) mod 2 ^ (k + 1) = (x + 2 ^ k) mod 2 ^ (k + 1).
Proof.
  intros Hk.
  assert (Hp : 2 ^ (k + 1) = 2 * 2 ^ k) by (rewrite Z.pow_add_r by lia; lia).
  assert (Hx : Z.lxor x (2 ^ k) = x + 2 ^ k - 2 * Z.land x (2 ^ k)).
  { pose proof (Z.add_lxor_2land x (2 ^ k)). lia. }
  rewrite Hx.
  destruct (Z.testbit x k) eqn:Hb.
  - assert (Z.land x (2 ^ k) = 2 ^ k) as ->.
    { apply Z.bits_inj'. intros n Hn.
      rewrite Z.land_spec, Z.pow2_bits_eqb by lia.
      destruct (Z.eqb_spec k n) as [->|]; [by rewrite Hb|apply andb_false_r]. }
    replace (x + 2 ^ k - 2 * 2 ^ k) with (x + 2 ^ k + (-1) * 2 ^ (k + 1)) by lia.
    apply Z.mod_add. lia.
  - assert (Z.land x (2 ^ k) = 0) as ->.
    { apply Z.bits_inj'. intros n Hn.
      rewrite Z.land_spec, Z.bits_0, Z.pow2_bits_eqb by lia.
      destruct (Z.eqb_spec k n) as [->|]; [by rewrite Hb|apply andb_false_r]. }
    f_equal. lia.
Qed.
End bits.

(** ** The bit loop *)

Section bit_loop.
Variables pps_high a : Z.

Lemma carried_S (k : nat) :
  carried pps_high a (S k)
  = expand_round pps_high a (2 ^ Z.of_nat k) (Z.ones (Z.of_nat k + 1))
                 (carried pps_high a k).
Proof. reflexivity. Qed.

Lemma expand_solution_acc one_hot mask acc s :
  expand_solution pps_high a one_hot mask acc s
  = acc ++ expand_solution pps_high a one_hot mask [] s.
Proof.
  unfold expand_solution. repeat case_decide; simpl; by rewrite <- ?app_assoc, ?app_nil_r.
Qed.

Lemma expand_round_bind one_hot mask sols :
  expand_round pps_high a one_hot mask sols
  = sols ≫= expand_solution pps_high a one_hot mask [].
Proof.
  unfold expand_round.
  assert (H : forall acc, fold_left (expand_solution pps_high a one_hot mask) sols acc
                     = acc ++ (sols ≫= expand_solution pps_high a one_hot mask [])).
  { induction sols as [|s sols IH]; intros acc; csimpl.
    - by rewrite app_nil_r.
    - rewrite IH, expand_solution_acc, app_assoc. reflexivity. }
  apply H.
Qed.

(** Setting bit [k] of a [k]-bit value changes the left-hand side by a
    multiple of [2^(k+1)]: [11 * 2^k] from the product and [2^k], up or
    down, from the XOR. *)
Lemma equation_flip (k s : Z) :
  0 <= k -> 0 <= s < 2 ^ k ->
  equation pps_high (s + 2 ^ k) mod 2 ^ (k + 1) = equation pps_high s mod 2 ^ (k + 1).
Proof.
  intros Hk Hs. unfold equation.
  assert (Hp : 2 ^ (k + 1) = 2 * 2 ^ k) by (rewrite Z.pow_add_r by lia; lia).
  rewrite (Z.add_nocarry_lxor s (2 ^ k)) at 2 by (apply land_one_hot_small; lia).
  rewrite <- Z.lxor_assoc.
  rewrite <- Z.add_mod_idemp_r, lxor_one_hot_mod, Z.add_mod_idemp_r by lia.
  replace (11 * (s + 2 ^ k) + (Z.lxor pps_high s + 2 ^ k))
    with (11 * s + Z.lxor pps_high s + 6 * 2 ^ (k + 1)) by lia.
  apply Z.mod_add. lia.
Qed.

Lemma expand_solution_kept (k : nat) (s : Z) :
  0 <= s < 2 ^ Z.of_nat k ->
  expand_solution pps_high a (2 ^ Z.of_nat k) (Z.ones (Z.of_nat k + 1)) [] s
  = kept pps_high a k s.
Proof.
  intros Hs. unfold expand_solution, kept.
  rewrite lor_one_hot, !Z.land_ones by lia.
  rewrite equation_flip by lia.
  repeat case_decide; done.
Qed.

Lemma bind_ext_in {A B} (f g : A -> list B) (l : list A) :
  (forall x, x ∈ l -> f x = g x) -> l ≫= f = l ≫= g.
Proof.
  induction l as [|x l IH]; intros H; csimpl; [done|].
  rewrite H, IH; [done| |left]. intros y Hy. apply H. by right.
Qed.

Lemma elem_of_kept (k : nat) (s y : Z) :
  y ∈ kept pps_high a k s <->
  (y = s \/ y = s + 2 ^ Z.of_nat k)
  /\ equation pps_high s mod 2 ^ (Z.of_nat k + 1) = a mod 2 ^ (Z.of_nat k + 1).
Proof.
  unfold kept. case_decide.
  - rewrite elem_of_cons, list_elem_of_singleton. tauto.
  - rewrite elem_of_nil. tauto.
Qed.

(** After [k] passes the carried list holds, once each, the [k]-bit
    values that solve the equation in its low [k] bits. *)
Lemma carried_spec (k : nat) :
  NoDup (carried pps_high a k)
  /\ (forall y, y ∈ carried pps_high a k <-> solves_mod pps_high a (Z.of_nat k) y)
  /\ carried pps_high a (S k) = carried pps_high a k ≫= kept pps_high a k.
Proof.
  assert (Hstep : forall k, (forall y, y ∈ carried pps_high a k -> 0 <= y < 2 ^ Z.of_nat k) ->
            carried pps_high a (S k) = carried pps_high a k ≫= kept pps_high a k).
  { intros j Hr. rewrite carried_S, expand_round_bind.
    apply bind_ext_in. intros s Hs. apply expand_solution_kept. auto. }
  assert (Hmain : NoDup (carried pps_high a k)
    /\ (forall y, y ∈ carried pps_high a k <-> solves_mod pps_high a (Z.of_nat k) y)).
  { induction k as [|k [IHnd IHin]].
    - split; [apply NoDup_singleton|]. intros y. cbn [carried].
      rewrite list_elem_of_singleton. unfold solves_mod.
      change (Z.of_nat 0) with 0. rewrite Z.pow_0_r, !Z.mod_1_r. lia.
    - assert (Hr : forall y, y ∈ carried pps_high a k -> 0 <= y < 2 ^ Z.of_nat k)
        by (intros y Hy; apply IHin in Hy; apply Hy).
      rewrite (Hstep k Hr).
      assert (Hp : 2 ^ Z.of_nat (S k) = 2 * 2 ^ Z.of_nat k)
        by (rewrite Nat2Z.inj_succ, Z.pow_succ_r by lia; lia).
      assert (Hpos : 0 < 2 ^ Z.of_nat k) by (apply Z.pow_pos_nonneg; lia).
      split.
      + apply NoDup_bind; [| |done].
        * intros s1 s2 y H1 H2 [Hy1 _]%elem_of_kept [Hy2 _]%elem_of_kept.
          apply Hr in H1, H2. lia.
        * intros s Hs. unfold kept. case_decide; [|constructor].
          apply NoDup_cons. rewrite list_elem_of_singleton.
          split; [lia|apply NoDup_singleton].
      + intros y. rewrite list_elem_of_bind. unfold solves_mod.
        replace (Z.of_nat (S k)) with (Z.of_nat k + 1) in * by lia.
        split.
        * intros (s & [Hy He]%elem_of_kept & Hs). pose proof (Hr s Hs).
          split; [lia|]. destruct Hy as [->| ->]; [done|].
          rewrite equation_flip by lia. done.
        * intros [Hy He]. exists (y mod 2 ^ Z.of_nat k).
          pose proof (Z.mod_pos_bound y (2 ^ Z.of_nat k) Hpos) as Hm.
          pose proof (Z.div_mod y (2 ^ Z.of_nat k) ltac:(lia)) as Hd.
          assert (Hq : y / 2 ^ Z.of_nat k = 0 \/ y / 2 ^ Z.of_nat k = 1).
          { assert (0 <= y / 2 ^ Z.of_nat k < 2); [|lia].
            split; [apply Z.div_pos; lia|apply Z.div_lt_upper_bound; lia]. }
          assert (Hy' : y = y mod 2 ^ Z.of_nat k \/
                        y = y mod 2 ^ Z.of_nat k + 2 ^ Z.of_nat k)
            by (destruct Hq as [Hq|Hq]; rewrite Hq in Hd; lia).
          assert (Hdiv : (2 ^ Z.of_nat k | 2 ^ (Z.of_nat k + 1)))
            by (exists 2; lia).
          split.
          -- apply elem_of_kept. split; [done|].
             rewrite <- He. destruct Hy' as [Hy'|Hy'].
             ++ by rewrite <- Hy'.
             ++ rewrite Hy' at 2. by rewrite equation_flip by lia.
          -- apply IHin. split; [done|].
             rewrite <- equation_mod by lia.
             rewrite <- (Z.mod_mod_divide (equation pps_high y) _ _ Hdiv).
             rewrite <- (Z.mod_mod_divide a _ _ Hdiv). by rewrite He. }
  destruct Hmain as [Hnd Hin]. split_and!; [done..|].
  apply Hstep. intros y Hy. apply Hin in Hy. apply Hy.
Qed.

(** The loop started at pass [k] runs the remaining passes and stops. *)
Lemma expand_loop_carried (n : nat) : forall (k fuel : nat),
  (k + n = 16)%nat -> (n < fuel)%nat ->
  expand_loop fuel pps_high a (carried pps_high a k)
              (2 ^ Z.of_nat k) (Z.ones (Z.of_nat k + 1))
  = Ret (carried pps_high a 16).
Proof.
  induction n as [|n IH]; intros k fuel Hk Hfuel;
    (destruct fuel as [|fuel]; [lia|]); cbn [expand_loop].
  - replace k with 16%nat by lia. rewrite decide_False; [done|].
    rewrite shiftl_1_16. change (Z.of_nat 16) with 16. lia.
  - rewrite decide_True.
    + rewrite one_hot_next, mask_next by lia.
      rewrite <- (carried_S k).
      replace (Z.of_nat k + 1) with (Z.of_nat (S k)) by lia.
      apply (IH (S k)); lia.
    + rewrite shiftl_1_16. apply Z.pow_lt_mono_r; lia.
Qed.

Lemma solve_bits_carried : solve_bits pps_high a = Ret (carried pps_high a 16).
Proof. apply (expand_loop_carried 16 0); unfold loop_fuel; lia. Qed.

(** More fuel than [loop_fuel] changes nothing. *)
Lemma expand_loop_fuel (fuel : nat) :
  (loop_fuel <= fuel)%nat ->
  expand_loop fuel pps_high a [0] 1 1 = solve_bits pps_high a.
Proof.
  intros Hf. rewrite solve_bits_carried.
  apply (expand_loop_carried 16 0); unfold loop_fuel in Hf; lia.
Qed.

Lemma length_bind_kept (k : nat) (l : list Z) :
  exists n : nat, length (l ≫= kept pps_high a k) = (2 * n)%nat /\ (n <= length l)%nat.
Proof.
  induction l as [|s l (n & IH & Hn)]; csimpl; [by exists 0%nat|].
  rewrite length_app, IH. unfold kept. case_decide; simpl.
  - exists (S n). lia.
  - exists n. lia.
Qed.

Lemma length_carried (k : nat) : (length (carried pps_high a k) <= 2 ^ k)%nat.
Proof.
  induction k as [|k IH]; [simpl; lia|].
  destruct (carried_spec k) as (_ & _ & ->).
  destruct (length_bind_kept k (carried pps_high a k)) as (n & -> & Hn).
  rewrite Nat.pow_succ_r'. lia.
Qed.

(** Evaluations of [equation] made from pass [k] on, for [n] passes. *)
Lemma expand_loop_count_carried (n : nat) : forall (k fuel evals : nat),
  (k + n = 16)%nat -> (n < fuel)%nat ->
  expand_loop_count fuel pps_high a (carried pps_high a k)
                    (2 ^ Z.of_nat k) (Z.ones (Z.of_nat k + 1)) evals
  = Ret (carried pps_high a 16,
         (evals + 2 * sum_list ((fun j => length (carried pps_high a j)) <$> seq k n))%nat).
Proof.
  induction n as [|n IH]; intros k fuel evals Hk Hfuel;
    (destruct fuel as [|fuel]; [lia|]); cbn [expand_loop_count].
  - replace k with 16%nat by lia. rewrite decide_False.
    + simpl. by rewrite Nat.add_0_r.
    + rewrite shiftl_1_16. change (Z.of_nat 16) with 16. lia.
  - rewrite decide_True.
    + rewrite one_hot_next, mask_next by lia.
      rewrite <- (carried_S k).
      replace (Z.of_nat k + 1) with (Z.of_nat (S k)) by lia.
      rewrite (IH (S k)) by lia. do 2 f_equal.
      rewrite <- cons_seq, fmap_cons. cbn [sum_list_with]. unfold id. lia.
    + rewrite shiftl_1_16. apply Z.pow_lt_mono_r; lia.
Qed.

Lemma sum_carried_bound (n : nat) :
  Z.of_nat (sum_list ((fun j => length (carried pps_high a j)) <$> seq 0 n)) + 1
  <= 2 ^ Z.of_nat n.
Proof.
  induction n as [|n IH]; [simpl; lia|].
  rewrite seq_S, fmap_app, sum_list_with_app. cbn [fmap list_fmap sum_list_with].
  pose proof (length_carried n) as Hn. apply Nat2Z.inj_le in Hn.
  rewrite Nat2Z.inj_pow in Hn. change (Z.of_nat 2) with 2 in Hn.
  rewrite Nat2Z.inj_succ, Z.pow_succ_r by lia.
  unfold id in *. change (0 + n)%nat with n. lia.
Qed.
End bit_loop.

(** XOR with 0x8000 on a Word: the top bit goes up or down. *)
Lemma lxor_top_bit (y : Z) :
  0 <= y < 2 ^ 16 ->
  (y < 2 ^ 15 /\ Z.lxor y 0x8000 = y + 2 ^ 15)
  \/ (2 ^ 15 <= y /\ Z.lxor y 0x8000 = y - 2 ^ 15).
Proof.
  intros Hy. change 0x8000 with (2 ^ 15).
  destruct (decide (y < 2 ^ 15)) as [Hlt|Hge]; [left|right]; (split; [lia|]).
  - symmetry. apply Z.add_nocarry_lxor, land_one_hot_small; lia.
  - replace y with (y - 2 ^ 15 + 2 ^ 15) at 1 by lia.
    rewrite (Z.add_nocarry_lxor (y - 2 ^ 15)) by (apply land_one_hot_small; lia).
    by rewrite Z.lxor_assoc, Z.lxor_nilpotent, Z.lxor_0_r.
Qed.

Lemma solves_mod_top_bit (m a y : Z) :
  solves_mod m a 16 y -> solves_mod m a 16 (Z.lxor y 0x8000).
Proof.
  intros [Hy He]. unfold solves_mod.
  destruct (lxor_top_bit y Hy) as [[Hlt ->]|[Hge ->]].
  - split; [lia|]. rewrite <- He. apply (equation_flip m 15); lia.
  - split; [lia|]. rewrite <- He.
    replace y with (y - 2 ^ 15 + 2 ^ 15) at 2 by lia.
    symmetry. apply (equation_flip m 15); lia.
Qed.

Lemma elem_of_range_unit (n y : Z) : y ∈ range 0 n 1 <-> 0 <= y < n.
Proof.
  unfold range. rewrite list_elem_of_fmap. setoid_rewrite elem_of_seqZ.
  replace ((n - 0 + 1 - 1) / 1) with n by (rewrite Z.div_1_r; lia).
  split; [intros (i & -> & Hi); lia|]. intros Hy. exists y. lia.
Qed.

Lemma NoDup_range_unit (n : Z) : NoDup (range 0 n 1).
Proof.
  unfold range. apply NoDup_fmap_2; [|apply NoDup_seqZ]. intros i j Hij. lia.
Qed.

(** ** C1 *)

(** C1. For every residual target [a] and every mask [m] (16-bit or not)
    the 16 passes of the bit loop, started from the single partial
    solution 0, return a list that holds exactly the Words [y] in
    [0, 2^16) with [(11*y + (y XOR m)) mod 2^16 = a mod 2^16]; it is a
    permutation of what the brute-force scan over all 65536 Words keeps. *)
Theorem bit_expansion_equals_brute_force (a m : Z) :
  exists sols : list Z,
    solve_bits m a = Ret sols
    /\ (forall y, y ∈ sols <->
               0 <= y < 2 ^ 16 /\ (11 * y + Z.lxor y m) mod 2 ^ 16 = a mod 2 ^ 16)
    /\ sols ≡ₚ brute_force m a.
Proof.
  exists (carried m a 16). destruct (carried_spec m a 16) as (Hnd & Hin & _).
  assert (Hchar : forall y, y ∈ carried m a 16 <->
            0 <= y < 2 ^ 16 /\ (11 * y + Z.lxor y m) mod 2 ^ 16 = a mod 2 ^ 16).
  { intros y. rewrite Hin. unfold solves_mod, equation.
    change (Z.of_nat 16) with 16. by rewrite (Z.lxor_comm m y). }
  split_and!; [apply solve_bits_carried|done|].
  apply NoDup_Permutation; [done| |].
  - apply NoDup_filter, NoDup_range_unit.
  - intros y. unfold brute_force.
    rewrite Hchar, list_elem_of_filter, elem_of_range_unit.
    change 0x10000 with (2 ^ 16). tauto.
Qed.

(** The fixture of the spec: [11*y + (y XOR 0x0005) = 0x0010] modulo
    0x10000 has no solution; the first pass already rejects both
    one-bit candidates. *)
Example fixture_0005_0010 : solve_bits 0x0005 0x0010 = Ret [].
Proof. reflexivity. Qed.

(** ** C9 *)

(** C9. For every residual target [a] and mask [m] the list the bit loop
    returns has no repetition and is closed under XOR with 0x8000: [y]
    is in it if and only if [y XOR 0x8000] is.  Its length is even, so
    the solution set is never a singleton. *)
Theorem solutions_closed_under_top_bit (a m : Z) :
  exists sols : list Z,
    solve_bits m a = Ret sols
    /\ NoDup sols
    /\ (forall y, y ∈ sols <-> Z.lxor y 0x8000 ∈ sols)
    /\ Nat.Even (length sols)
    /\ length sols <> 1%nat.
Proof.
  exists (carried m a 16). destruct (carried_spec m a 16) as (Hnd & Hin & _).
  destruct (carried_spec m a 15) as (_ & _ & Hlast).
  destruct (length_bind_kept m a 15 (carried m a 15)) as (n & Hlen & _).
  rewrite <- Hlast in Hlen.
  split_and!; [apply solve_bits_carried|done| |by exists n|lia].
  intros y. rewrite !Hin. change (Z.of_nat 16) with 16.
  split; [apply solves_mod_top_bit|].
  intros H%solves_mod_top_bit.
  by rewrite Z.lxor_assoc, Z.lxor_nilpotent, Z.lxor_0_r in H.
Qed.

(** ** How fast the carried list can grow *)

Section growth.
Variables pps_high a : Z.

Lemma land_one_hot (x j : Z) :
  0 <= j -> Z.land x (2 ^ j) = if Z.testbit x j then 2 ^ j else 0.
Proof.
  intros Hj. apply Z.bits_inj'. intros n Hn.
  rewrite Z.land_spec, Z.pow2_bits_eqb by lia.
  destruct (Z.eqb_spec j n) as [->|Hne].
  - destruct (Z.testbit x n) eqn:Hb; rewrite ?Z.bits_0, ?Z.pow2_bits_eqb by lia;
      [by rewrite Z.eqb_refl|done].
  - rewrite andb_false_r.
    destruct (Z.testbit x j); rewrite ?Z.bits_0, ?Z.pow2_bits_eqb by lia;
      [by apply Z.eqb_neq in Hne; rewrite Hne|done].
Qed.

(** What one bit of the unknown is worth: setting a clear bit [j] adds
    [11 * 2^j] through the product and [2^j] through the XOR when the
    mask has bit [j] clear, and takes [2^j] away when the mask has it. *)
Lemma equation_set_bit (j s : Z) :
  0 <= j -> Z.testbit s j = false ->
  equation pps_high (s + 2 ^ j)
  = equation pps_high s + (if Z.testbit pps_high j then 10 else 12) * 2 ^ j.
Proof.
  intros Hj Hs. unfold equation.
  assert (Hland : Z.land s (2 ^ j) = 0) by (by rewrite land_one_hot, Hs).
  rewrite (Z.add_nocarry_lxor s (2 ^ j)) at 2 by done.
  rewrite <- Z.lxor_assoc.
  pose proof (Z.add_lxor_2land (Z.lxor pps_high s) (2 ^ j)) as Hx.
  rewrite land_one_hot, Z.lxor_spec, Hs, xorb_false_r in Hx by done.
  destruct (Z.testbit pps_high j); lia.
Qed.

Lemma lxor_one_hot_involutive (j s : Z) : Z.lxor (Z.lxor s (2 ^ j)) (2 ^ j) = s.
Proof. by rewrite Z.lxor_assoc, Z.lxor_nilpotent, Z.lxor_0_r. Qed.

(** Flipping bit [j] moves the left-hand side by that worth, up or down. *)
Lemma equation_flip_bit (j s : Z) :
  0 <= j ->
  exists c : Z,
    (c = 1 \/ c = -1)
    /\ Z.lxor s (2 ^ j) = s + c * 2 ^ j
    /\ equation pps_high (Z.lxor s (2 ^ j))
       = equation pps_high s + c * ((if Z.testbit pps_high j then 10 else 12) * 2 ^ j).
Proof.
  intros Hj. destruct (Z.testbit s j) eqn:Hs.
  - exists (-1).
    assert (Ht : Z.testbit (Z.lxor s (2 ^ j)) j = false).
    { by rewrite Z.lxor_spec, Hs, Z.pow2_bits_true. }
    assert (Hback : s = Z.lxor s (2 ^ j) + 2 ^ j).
    { rewrite Z.add_nocarry_lxor by (by rewrite land_one_hot, Ht).
      by rewrite lxor_one_hot_involutive. }
    pose proof (equation_set_bit j _ Hj Ht) as He. rewrite <- Hback in He.
    split_and!; [by right|lia|lia].
  - exists 1.
    assert (Hfw : Z.lxor s (2 ^ j) = s + 2 ^ j).
    { symmetry. apply Z.add_nocarry_lxor. by rewrite land_one_hot, Hs. }
    rewrite Hfw, equation_set_bit by done. split_and!; [by left|lia|lia].
Qed.

(** A list without repetition that an involution maps to itself, and on
    which a test holds at exactly one of [x] and its image, passes the
    test at half of its elements. *)
Lemma length_filter_involution {A : Type} (P : A -> Prop) `{!forall x, Decision (P x)}
    (f : A -> A) (l : list A) :
  NoDup l ->
  (forall x, f (f x) = x) ->
  (forall x, x ∈ l -> f x ∈ l) ->
  (forall x, x ∈ l -> (P x <-> ~ P (f x))) ->
  length l = (2 * length (filter P l))%nat.
Proof.
  intros Hnd Hinv Hclosed Hone.
  assert (Hperm : f <$> filter P l ≡ₚ filter (fun x => ~ P x) l).
  { apply NoDup_Permutation.
    - apply NoDup_fmap_2; [|by apply NoDup_filter].
      intros x y Hxy. by rewrite <- (Hinv x), Hxy.
    - by apply NoDup_filter.
    - intros y. rewrite list_elem_of_fmap, list_elem_of_filter. split.
      + intros (x & -> & [HP Hx]%list_elem_of_filter).
        split; [by apply Hone|by apply Hclosed].
      + intros [HnP Hy]. exists (f y). split; [by rewrite Hinv|].
        apply list_elem_of_filter. split; [|by apply Hclosed].
        destruct (decide (P (f y))) as [|Hn]; [done|].
        exfalso. apply HnP. apply Hone; [done|]. done. }
  rewrite <- (filter_app_complement P l) at 1.
  rewrite length_app, <- Hperm, length_fmap. lia.
Qed.

Lemma length_bind_kept_filter (k : nat) (l : list Z) :
  length (l ≫= kept pps_high a k)
  = (2 * length (filter (fun s => (equation pps_high s mod 2 ^ (Z.of_nat k + 1)
                                   = a mod 2 ^ (Z.of_nat k + 1))%Z) l))%nat.
Proof.
  induction l as [|s l IH]; csimpl; [done|].
  rewrite length_app, IH, filter_cons. unfold kept. case_decide; simpl; lia.
Qed.

(** Two values that agree with the target in the low [k] bits and lie an
    odd multiple of [2^k] apart: exactly one agrees in bit [k] too. *)
Lemma one_of_two_passes (k e e' q : Z) :
  0 <= k ->
  e mod 2 ^ k = a mod 2 ^ k ->
  e' = e + (2 * q + 1) * 2 ^ k ->
  e mod 2 ^ (k + 1) = a mod 2 ^ (k + 1) <-> e' mod 2 ^ (k + 1) <> a mod 2 ^ (k + 1).
Proof.
  intros Hk He He'.
  assert (Hp : 2 ^ (k + 1) = 2 * 2 ^ k) by (rewrite Z.pow_add_r by lia; lia).
  assert (Hpos : 0 < 2 ^ k) by (apply Z.pow_pos_nonneg; lia).
  apply Z.cong_iff_ex in He as [u Hu]. rewrite !Z.cong_iff_ex, Hp.
  split.
  - intros [v Hv] [w Hw].
    assert (H0 : (2 * (w - v - q) - 1) * 2 ^ k = 0) by lia.
    apply Z.mul_eq_0 in H0. lia.
  - intros Hno. destruct (Z.Even_or_Odd u) as [[v Hv]|[v Hv]].
    + exists v. subst u. lia.
    + exfalso. apply Hno. exists (v + q + 1). subst u. lia.
Qed.

(** A pass whose bit has a partner bit [j] below it worth an odd multiple
    of [2^k] keeps half of the carried solutions, each twice: the list
    does not grow. *)
Lemma carried_same_length (k : nat) (j q : Z) :
  0 <= j < Z.of_nat k ->
  (if Z.testbit pps_high j then 10 else 12) * 2 ^ j = (2 * q + 1) * 2 ^ Z.of_nat k ->
  length (carried pps_high a (S k)) = length (carried pps_high a k).
Proof.
  intros Hj Hworth.
  destruct (carried_spec pps_high a k) as (Hnd & Hin & ->).
  rewrite length_bind_kept_filter. symmetry.
  assert (Hlt : 2 ^ j < 2 ^ Z.of_nat k) by (apply Z.pow_lt_mono_r; lia).
  assert (Hdiv : (2 ^ (j + 1) | 2 ^ Z.of_nat k)).
  { exists (2 ^ (Z.of_nat k - (j + 1))). rewrite <- Z.pow_add_r by lia. f_equal. lia. }
  apply (length_filter_involution _ (fun s => Z.lxor s (2 ^ j))); [done| | |].
  - intros s. apply lxor_one_hot_involutive.
  - intros s [Hs He]%Hin. apply Hin.
    destruct (equation_flip_bit j s) as (c & Hc & Hx & Heq); [lia|].
    split.
    + assert (Hnn : 0 <= Z.lxor s (2 ^ j)) by (apply Z.lxor_nonneg; lia).
      split; [done|].
      destruct (decide (Z.lxor s (2 ^ j) < 2 ^ Z.of_nat k)) as [|Hge]; [done|].
      exfalso.
      assert (Hb : Z.testbit (Z.lxor s (2 ^ j)) (Z.log2 (Z.lxor s (2 ^ j))) = true)
        by (apply Z.bit_log2; lia).
      assert (Hlog : Z.of_nat k <= Z.log2 (Z.lxor s (2 ^ j)))
        by (apply Z.log2_le_pow2; lia).
      rewrite Z.lxor_spec, testbit_small, Z.pow2_bits_false in Hb; [done|lia|].
      split; [lia|]. apply Z.lt_le_trans with (2 ^ Z.of_nat k); [lia|].
      apply Z.pow_le_mono_r; lia.
    + rewrite <- He, Heq, Hworth.
      replace (equation pps_high s + c * ((2 * q + 1) * 2 ^ Z.of_nat k))
        with (equation pps_high s + (c * (2 * q + 1)) * 2 ^ Z.of_nat k) by lia.
      apply Z.mod_add. lia.
  - intros s [Hs He]%Hin.
    destruct (equation_flip_bit j s) as (c & Hc & Hx & Heq); [lia|].
    rewrite Hworth in Heq.
    destruct Hc as [-> | ->].
    + apply (one_of_two_passes _ _ _ q); [lia|done|lia].
    + apply (one_of_two_passes _ _ _ (- q - 1)); [lia|done|lia].
Qed.

Lemma carried_at_most_doubles (k : nat) :
  (length (carried pps_high a (S k)) <= 2 * length (carried pps_high a k))%nat.
Proof.
  destruct (carried_spec pps_high a k) as (_ & _ & ->).
  destruct (length_bind_kept pps_high a k (carried pps_high a k)) as (n & -> & Hn). lia.
Qed.

(** Of two passes in a row at most one lets the list grow: pass [k]
    needs bit [k-1] of the mask clear, pass [k+1] needs it set. *)
Lemma carried_two_passes (k : nat) :
  (1 <= k)%nat ->
  (length (carried pps_high a (S (S k))) <= 2 * length (carried pps_high a k))%nat.
Proof.
  intros Hk.
  assert (Hp : 2 ^ Z.of_nat k = 2 * 2 ^ (Z.of_nat k - 1)).
  { rewrite <- Z.pow_succ_r by lia. f_equal. lia. }
  pose proof (carried_at_most_doubles k). pose proof (carried_at_most_doubles (S k)).
  destruct (Z.testbit pps_high (Z.of_nat k - 1)) eqn:Hbit.
  - assert (Hsame : length (carried pps_high a (S k)) = length (carried pps_high a k)).
    { apply (carried_same_length k (Z.of_nat k - 1) 2); [lia|]. rewrite Hbit. lia. }
    lia.
  - assert (Hsame : length (carried pps_high a (S (S k)))
                    = length (carried pps_high a (S k))).
    { apply (carried_same_length (S k) (Z.of_nat k - 1) 1); [lia|].
      rewrite Hbit, Nat2Z.inj_succ, Z.pow_succ_r by lia. lia. }
    lia.
Qed.

Lemma length_carried_pairs (n : nat) :
  (length (carried pps_high a (2 * n + 1)) <= 2 ^ (n + 1)
   /\ length (carried pps_high a (2 * n + 2)) <= 2 ^ (n + 2))%nat.
Proof.
  induction n as [|n [IH1 IH2]].
  - pose proof (carried_at_most_doubles 0). pose proof (carried_at_most_doubles 1).
    change (length (carried pps_high a 0)) with 1%nat in *.
    change (2 * 0 + 1)%nat with 1%nat. change (2 * 0 + 2)%nat with 2%nat.
    change (2 ^ (0 + 1))%nat with 2%nat. change (2 ^ (0 + 2))%nat with 4%nat. lia.
  - replace (2 * S n + 1)%nat with (S (S (2 * n + 1))) by lia.
    replace (2 * S n + 2)%nat with (S (S (2 * n + 2))) by lia.
    pose proof (carried_two_passes (2 * n + 1) ltac:(lia)).
    pose proof (carried_two_passes (2 * n + 2) ltac:(lia)).
    replace (S n + 1)%nat with (S (n + 1)) by lia.
    replace (S n + 2)%nat with (S (n + 2)) by lia.
    rewrite !Nat.pow_succ_r'. lia.
Qed.

(** Pass [k] carries at most [2^(k/2 + 1)] partial solutions. *)
Lemma length_carried_half (k : nat) :
  (length (carried pps_high a k) <= 2 ^ (k / 2 + 1))%nat.
Proof.
  destruct k as [|k]; [simpl; lia|].
  destruct (Nat.Even_or_Odd k) as [[n Hn]|[n Hn]].
  - destruct (length_carried_pairs n) as [H _].
    replace (S k) with (2 * n + 1)%nat by lia.
    replace ((2 * n + 1) / 2)%nat with n; [done|].
    apply (Nat.div_unique _ 2 n 1); lia.
  - destruct (length_carried_pairs n) as [_ H].
    replace (S k) with (2 * n + 2)%nat by lia.
    replace ((2 * n + 2) / 2)%nat with (n + 1)%nat;
      [by replace (n + 1 + 1)%nat with (n + 2)%nat by lia|].
    apply (Nat.div_unique _ 2 (n + 1) 0); lia.
Qed.

Lemma sum_list_le (f g : nat -> nat) (l : list nat) :
  (forall k, (f k <= g k)%nat) -> (sum_list (f <$> l) <= sum_list (g <$> l))%nat.
Proof.
  intros Hfg. induction l as [|k l IH]; [done|].
  rewrite !fmap_cons. cbn [sum_list_with]. specialize (Hfg k). unfold id in *. lia.
Qed.

(** The lists carried into the 16 passes hold at most 1019 partial
    solutions together: 1, then 2, then 4, 4, 8, 8, ..., 256, 256. *)
Lemma sum_carried_half :
  (sum_list ((fun k => length (carried pps_high a k)) <$> seq 0 16) <= 1019)%nat.
Proof.
  change (seq 0 16) with (0%nat :: seq 1 15). rewrite fmap_cons.
  cbn [sum_list_with]. change (length (carried pps_high a 0)) with 1%nat.
  pose proof (sum_list_le (fun k => length (carried pps_high a k))
                (fun k => 2 ^ (k / 2 + 1))%nat (seq 1 15) length_carried_half) as H.
  change (sum_list ((fun k => 2 ^ (k / 2 + 1))%nat <$> seq 1 15)) with 1018%nat in H.
  unfold id in *. lia.
Qed.
End growth.

(** ** C8 *)

(** C8, the claim as stated fails: with target 0 and mask 0 the loop
    carries four partial solutions from pass 2 on and evaluates the
    equation 118 times. *)
Lemma more_than_32_evaluations :
  exists (sols : list Z) (evals : nat),
    solve_bits_count 0 0 = Ret (sols, evals)
    /\ (32 < evals)%nat
    /\ (1 < length (carried 0 0 2))%nat.
Proof. exists [0; 32768; 16384; 49152], 118%nat. vm_compute. split_and!; [done|lia..]. Qed.

(** C8, amended. Every call runs the 16 passes and stops, returning the
    list carried out of the last one.  Each pass evaluates the equation
    twice for every partial solution carried into it, so a call makes
    [2 * (c 0 + ... + c 15)] evaluations, [c k] being the length of the
    list carried into pass [k].  [c 0 = 1]; [c k] is at most [2^k] and at
    most [2^(k/2 + 1)], because of two passes in a row at most one lets
    the list grow: [c (k+2) <= 2 * c k] from [k = 1] on.  A call
    therefore makes at least 2 and at most 2038 evaluations, and returns
    at most 512 solutions. *)
Theorem evaluations_per_call (a m : Z) :
  exists (sols : list Z) (evals : nat),
    solve_bits_count m a = Ret (sols, evals)
    /\ solve_bits m a = Ret sols
    /\ sols = carried m a 16
    /\ evals = (2 * sum_list ((fun k => length (carried m a k)) <$> seq 0 16))%nat
    /\ length (carried m a 0) = 1%nat
    /\ (forall k : nat, (length (carried m a k) <= 2 ^ k)%nat)
    /\ (forall k : nat, (length (carried m a k) <= 2 ^ (k / 2 + 1))%nat)
    /\ (forall k : nat, (1 <= k)%nat ->
          (length (carried m a (S (S k))) <= 2 * length (carried m a k))%nat)
    /\ (2 <= evals <= 2038)%nat
    /\ (length sols <= 512)%nat.
Proof.
  eexists _, _. split_and!.
  - apply (expand_loop_count_carried m a 16 0); unfold loop_fuel; lia.
  - apply solve_bits_carried.
  - reflexivity.
  - reflexivity.
  - reflexivity.
  - apply length_carried.
  - apply length_carried_half.
  - apply carried_two_passes.
  - change (seq 0 16) with (0%nat :: seq 1 15). rewrite fmap_cons.
    cbn [sum_list_with]. change (length (carried m a 0)) with 1%nat.
    unfold id. lia.
  - pose proof (sum_carried_half m a). lia.
  - apply (length_carried_half m a 16).
Qed.

(** ** Ordered dictionaries *)

Section odict_facts.
Context {V : Type}.
Implicit Types (d : list (Z * V)) (k : Z) (v : V).

Lemma od_get_set k k' v d :
  od_get k' (od_set k v d) = if decide (k = k') then Some v else od_get k' d.
Proof.
  induction d as [|[k0 v0] d IH]; simpl.
  - repeat case_decide; congruence.
  - repeat (case_decide; simpl); try congruence.
Qed.

Lemma od_set_fresh k v d : od_get k d = None -> od_set k v d = d ++ [(k, v)].
Proof.
  induction d as [|[k0 v0] d IH]; simpl; [done|].
  case_decide; [done|]. intros Hd. by rewrite IH.
Qed.

Lemma od_set_last k v w d :
  od_get k d = None -> od_set k v (d ++ [(k, w)]) = d ++ [(k, v)].
Proof.
  induction d as [|[k0 v0] d IH]; simpl.
  - by rewrite decide_True.
  - case_decide; [done|]. intros Hd. by rewrite IH.
Qed.

Lemma od_get_app k d d' :
  od_get k (d ++ d') = match od_get k d with Some v => Some v | None => od_get k d' end.
Proof.
  induction d as [|[k0 v0] d IH]; simpl; [done|]. by case_decide.
Qed.
End odict_facts.

(** ** [sorted] *)

Lemma elem_of_sorted (s : gset Z) (x : Z) : x ∈ sorted s <-> x ∈ s.
Proof. unfold sorted. by rewrite merge_sort_Permutation, elem_of_elements. Qed.

Lemma NoDup_sorted (s : gset Z) : NoDup (sorted s).
Proof. unfold sorted. rewrite merge_sort_Permutation. apply NoDup_elements. Qed.

Lemma sorted_ascending (s : gset Z) : StronglySorted Z.le (sorted s).
Proof. apply (StronglySorted_merge_sort Z.le). Qed.

Lemma StronglySorted_filter {A} (R : relation A) (P : A -> Prop)
    `{!forall x, Decision (P x)} (l : list A) :
  StronglySorted R l -> StronglySorted R (filter P l).
Proof.
  induction 1 as [|x l Hl IH Hx]; [constructor|].
  rewrite filter_cons. case_decide; [|done].
  constructor; [done|]. rewrite Forall_forall in *.
  intros y [_ Hy]%list_elem_of_filter. auto.
Qed.

(** ** [get_round_1] *)

Section round_1.
Variables key_highs : gset Z.

(** The walked checksum totals are the eight multiples of [3 << 16]
    below [MAX_CHECKSUM]. *)
Lemma checksum_totals :
  range 0 MAX_CHECKSUM (Z.shiftl 3 16) = (fun i => 196608 * i) <$> seqZ 0 8.
Proof. reflexivity. Qed.

(** The division of line 35 is exact on the walked totals. *)
Lemma probe_high_exact (key_low i : Z) :
  (196608 * i - key_low * 12) / 12 = 16384 * i - key_low.
Proof.
  replace (196608 * i - key_low * 12) with ((16384 * i - key_low) * 12) by lia.
  apply Z.div_mul. lia.
Qed.

Lemma elem_of_highs_of (key_low key_high : Z) :
  key_high ∈ highs_of key_highs key_low <->
  key_high ∈ key_highs /\ exists i, 0 <= i < 8 /\ key_high = 16384 * i - key_low.
Proof.
  unfold highs_of. rewrite list_elem_of_filter, checksum_totals, <- list_fmap_compose.
  rewrite list_elem_of_fmap. setoid_rewrite elem_of_seqZ.
  split; intros [Hin (i & Hi1 & Hi2)]; (split; [done|]); exists i; simpl in *;
    rewrite ?probe_high_exact in *; (split; [lia|done]) || (split; [done|lia]).
Qed.

(** The inner loop once the entry of [key_low] exists, as the last. *)
Lemma probe_fold_open (key_low : Z) (cs : list Z) : forall d acc,
  od_get key_low d = None ->
  fold_left (probe_checksum key_highs key_low) cs (d ++ [(key_low, acc)])
  = d ++ [(key_low,
           acc ++ filter (fun key_high => key_high ∈ key_highs)
                         ((fun checksum => (checksum - (key_low * 12)) / 12) <$> cs))].
Proof.
  induction cs as [|c cs IH]; intros d acc Hd; simpl.
  - by rewrite app_nil_r.
  - unfold probe_checksum at 2. rewrite filter_cons. case_decide.
    + unfold od_mem. rewrite od_get_app, Hd. simpl. rewrite decide_True by done.
      simpl. rewrite od_set_last, IH by done.
      rewrite od_get_app, Hd. simpl. rewrite decide_True by done.
      by rewrite <- app_assoc.
    + by apply IH.
Qed.

(** The inner loop for a [key_low] that has no entry yet. *)
Lemma probe_fold_fresh (key_low : Z) (cs : list Z) : forall d,
  od_get key_low d = None ->
  fold_left (probe_checksum key_highs key_low) cs d
  = match filter (fun key_high => key_high ∈ key_highs)
                 ((fun checksum => (checksum - (key_low * 12)) / 12) <$> cs) with
    | [] => d
    | hs => d ++ [(key_low, hs)]
    end.
Proof.
  induction cs as [|c cs IH]; intros d Hd; simpl; [done|].
  unfold probe_checksum at 2. rewrite filter_cons. case_decide.
  - unfold od_mem. rewrite Hd. rewrite (od_set_fresh _ _ _ Hd).
    rewrite od_get_app, Hd. simpl. rewrite decide_True by done. simpl.
    rewrite od_set_last, probe_fold_open by done. done.
  - by apply IH.
Qed.

Lemma od_get_round_1_entry (key_low k : Z) :
  od_get k (round_1_entry key_highs key_low)
  = if decide (key_low = k /\ highs_of key_highs key_low <> [])
    then Some (highs_of key_highs key_low) else None.
Proof.
  unfold round_1_entry. destruct (highs_of key_highs key_low) eqn:E; simpl.
  - rewrite decide_False; [done|]. tauto.
  - destruct (decide (key_low = k)) as [->|Hk].
    + by rewrite decide_True.
    + rewrite decide_False; [done|]. tauto.
Qed.

Lemma fold_left_cons_eq {A B : Type} (f : A -> B -> A) (x : B) (l : list B) (a : A) :
  fold_left f (x :: l) a = fold_left f l (f a x).
Proof. reflexivity. Qed.

(** One pass of the outer loop for a [key_low] that has no entry yet. *)
Lemma probe_fold_entry (key_low : Z) (d : list (Z * list Z)) :
  od_get key_low d = None ->
  fold_left (probe_checksum key_highs key_low)
            (range 0 MAX_CHECKSUM (Z.shiftl 3 16)) d
  = d ++ round_1_entry key_highs key_low.
Proof.
  intros Hd. unfold round_1_entry, highs_of.
  generalize (range 0 MAX_CHECKSUM (Z.shiftl 3 16)). intros cs.
  rewrite probe_fold_fresh by done.
  destruct (filter _ _); by rewrite ?app_nil_r.
Qed.

Lemma round_1_fold (lows : list Z) : forall d,
  NoDup lows -> (forall l, l ∈ lows -> od_get l d = None) ->
  fold_left
    (fun round_1 key_low =>
       fold_left (probe_checksum key_highs key_low)
                 (range 0 MAX_CHECKSUM (Z.shiftl 3 16)) round_1) lows d
  = d ++ (lows ≫= round_1_entry key_highs).
Proof.
  induction lows as [|low lows IH]; intros d Hnd Hd.
  - csimpl. by rewrite app_nil_r.
  - rewrite fold_left_cons_eq, bind_cons.
    apply NoDup_cons in Hnd as [Hlow Hnd].
    rewrite probe_fold_entry by (apply Hd; left).
    rewrite IH, <- app_assoc; [done|done|].
    intros l Hl. rewrite od_get_app, Hd by (by right).
    rewrite od_get_round_1_entry, decide_False; [done|].
    intros [-> _]. done.
Qed.

Lemma get_round_1_entries (key_lows : gset Z) :
  get_round_1 key_lows key_highs = sorted key_lows ≫= round_1_entry key_highs.
Proof.
  unfold get_round_1. rewrite round_1_fold; [done|apply NoDup_sorted|done].
Qed.

Lemma od_get_entries (lows : list Z) (k : Z) :
  od_get k (lows ≫= round_1_entry key_highs)
  = if decide (k ∈ lows /\ highs_of key_highs k <> [])
    then Some (highs_of key_highs k) else None.
Proof.
  induction lows as [|low lows IH].
  - case_decide as H; [|done]. destruct H as [H _]. by apply elem_of_nil in H.
  - rewrite bind_cons, od_get_app, od_get_round_1_entry, IH.
    destruct (decide (k ∈ low :: lows /\ highs_of key_highs k <> [])) as [[Hin Hne]|Hn].
    + apply elem_of_cons in Hin. destruct (decide (low = k)) as [->|Hlk].
      * by rewrite decide_True.
      * rewrite (decide_False (P := low = k /\ _)) by tauto.
        rewrite decide_True; [done|]. split; [|done]. destruct Hin; [congruence|done].
    + rewrite decide_False, decide_False; [done| |].
      * intros [Hin Hne]. apply Hn. split; [by right|done].
      * intros [-> Hne]. apply Hn. split; [by left|done].
Qed.

(** What [round_1[key_low]] is, and when the key exists. *)
Lemma od_get_round_1 (key_lows : gset Z) (k : Z) :
  od_get k (get_round_1 key_lows key_highs)
  = if decide (k ∈ key_lows /\ highs_of key_highs k <> [])
    then Some (highs_of key_highs k) else None.
Proof.
  rewrite get_round_1_entries, od_get_entries.
  repeat case_decide; try done; exfalso; rewrite elem_of_sorted in *; tauto.
Qed.

Lemma highs_of_ascending (key_low : Z) :
  StronglySorted Z.lt (highs_of key_highs key_low).
Proof.
  unfold highs_of. apply StronglySorted_filter.
  rewrite checksum_totals, <- list_fmap_compose.
  apply (StronglySorted_fmap _ Z.lt); [intros x y Hxy; simpl; rewrite !probe_high_exact; lia|].
  change (seqZ 0 8) with [0; 1; 2; 3; 4; 5; 6; 7].
  repeat (apply SSorted_cons; [|repeat (constructor; [lia|]); constructor]).
  apply SSorted_nil.
Qed.
End round_1.

(** ** [build_round_1_map] *)

Section build_round_1.
Variable xor_values : gset Z.

Lemma accepts_stored_ok (xor_value i j : Z) :
  i = Z.land (0x10000 - (xor_value * 12)) 0xFFFF + 0x10000 * j ->
  accepts xor_values i = true -> stored_ok xor_values xor_value (i / 12).
Proof.
  unfold accepts. rewrite !andb_true_iff, !bool_decide_eq_true.
  intros Hi [[Hmod Hin] Hbit]. split_and!; [|done..].
  change 0xFFFF with (Z.ones 16) in Hi. rewrite Z.land_ones in Hi by lia.
  pose proof (Z.div_mod i 12 ltac:(lia)) as Hdiv.
  pose proof (Z.div_mod (0x10000 - xor_value * 12) (2 ^ 16) ltac:(lia)) as Hrem.
  change (2 ^ 16) with 0x10000 in *.
  replace (12 * xor_value + 12 * (i / 12))
    with ((1 + j - (0x10000 - xor_value * 12) / 0x10000) * 0x10000) by lia.
  apply Z_mod_mult.
Qed.

Lemma probe_first_ok (xor_value : Z) (candidates : list Z) (d : list (Z * Z)) :
  (forall i, i ∈ candidates ->
     exists j, i = Z.land (0x10000 - (xor_value * 12)) 0xFFFF + 0x10000 * j) ->
  (forall k v, od_get k d = Some v -> stored_ok xor_values k v) ->
  forall k v, od_get k (probe_first xor_values xor_value candidates d) = Some v ->
         stored_ok xor_values k v.
Proof.
  induction candidates as [|i rest IH]; intros Hc Hd k v; simpl; [apply Hd|].
  destruct (accepts xor_values i) eqn:Hacc.
  - rewrite od_get_set. case_decide as Hk; [|apply Hd].
    intros [= <-]. subst k. destruct (Hc i) as [j Hj]; [left|].
    by apply (accepts_stored_ok _ _ j).
  - apply IH; [|done]. intros i' Hi'. apply Hc. by right.
Qed.

Lemma build_round_1_map_ok (k v : Z) :
  od_get k (build_round_1_map xor_values) = Some v -> stored_ok xor_values k v.
Proof.
  unfold build_round_1_map. generalize (sorted xor_values). intros lows.
  assert (H : forall d, (forall k v, od_get k d = Some v -> stored_ok xor_values k v) ->
    forall k v, od_get k (fold_left
      (fun checksum_map xor_value =>
         let remainder := Z.land (0x10000 - (xor_value * 12)) 0xFFFF in
         probe_first xor_values xor_value (range remainder 0xC0000 0x10000) checksum_map)
      lows d) = Some v -> stored_ok xor_values k v).
  { induction lows as [|low lows IH]; intros d Hd; [done|].
    cbn [fold_left]. apply IH. apply probe_first_ok; [|done].
    intros i (j & -> & _)%list_elem_of_fmap. by exists j. }
  apply H. intros k' v'. done.
Qed.
End build_round_1.

(** ** C3 *)

(** C3, the claim as stated fails: [get_round_1] does not test bit 14.
    Called with the unfiltered set on both sides, as [get_round_2] calls
    it, it returns the pair (0x4000, 0x4000). *)
Lemma round_1_high_with_bit_14 :
  exists highs : list Z,
    od_get 0x4000 (get_round_1 {[ 0x4000 ]} {[ 0x4000 ]}) = Some highs
    /\ 0x4000 ∈ highs
    /\ Z.land 0x4000 0x4000 <> 0.
Proof. exists [0x4000]. split_and!; [by vm_compute|by left|by vm_compute]. Qed.

(** C3, amended. For every pair of sets and every [(low, high)] of the
    map [get_round_1] returns, [(12*low + 12*high) mod 0x10000 = 0] and
    [high] is in the supplied high set; [high] has bit 14 clear when the
    supplied high set holds only such values, which is how [main] calls
    it.  [build_round_1_map] tests bit 14 itself, so all three hold for
    every pair it stores.  With the set {0x0001, 0x0003, 0x8002} both
    return an empty map, so 0x8002 is the [high] of no pair. *)
Theorem round_1_pairs_sound (key_lows key_highs : gset Z) (low high : Z) (highs : list Z) :
  od_get low (get_round_1 key_lows key_highs) = Some highs ->
  high ∈ highs ->
  ((12 * low + 12 * high) mod 0x10000 = 0
   /\ high ∈ key_highs
   /\ ((forall h, h ∈ key_highs -> Z.land h 0x4000 = 0) -> Z.land high 0x4000 = 0))
  /\ (forall (xor_values : gset Z) (low' high' : Z),
        od_get low' (build_round_1_map xor_values) = Some high' ->
        (12 * low' + 12 * high') mod 0x10000 = 0
        /\ high' ∈ xor_values /\ Z.land high' 0x4000 = 0)
  /\ get_round_1 {[ 0x0001; 0x0003; 0x8002 ]} {[ 0x0001; 0x0003; 0x8002 ]} = []
  /\ build_round_1_map {[ 0x0001; 0x0003; 0x8002 ]} = [].
Proof.
  intros Hget Hin. rewrite od_get_round_1 in Hget.
  case_decide as Hk; [|done]. injection Hget as <-.
  apply elem_of_highs_of in Hin as [Hmem (i & Hi & ->)].
  split_and!; [|done|auto| |by vm_compute..].
  - replace (12 * low + 12 * (16384 * i - low)) with (3 * i * 0x10000) by lia.
    apply Z_mod_mult.
  - intros xor_values low' high'. apply build_round_1_map_ok.
Qed.

Lemma round_1_pairs_sound_witness :
  od_get 0x4000 (get_round_1 {[ 0x4000; 0x8000 ]} {[ 0x8000 ]}) = Some [0x8000]
  /\ 0x8000 ∈ [0x8000]
  /\ (12 * 0x4000 + 12 * 0x8000) mod 0x10000 = 0.
Proof.
  assert (Hget : od_get 0x4000 (get_round_1 {[ 0x4000; 0x8000 ]} {[ 0x8000 ]})
                 = Some [0x8000]) by (by vm_compute).
  assert (Hin : 0x8000 ∈ [0x8000]) by (by left).
  split_and!; [exact Hget|exact Hin|].
  exact (proj1 (proj1 (round_1_pairs_sound _ _ _ _ _ Hget Hin))).
Defined.

(** ** What [build_round_1_map] stores *)

Lemma seq_ascending (j n : nat) : StronglySorted lt (seq j n).
Proof.
  revert j. induction n as [|n IH]; intros j; simpl; constructor; [apply IH|].
  apply Forall_forall. intros k Hk%elem_of_seq. lia.
Qed.

Lemma range_ascending (start stop step : Z) :
  0 < step -> StronglySorted Z.lt (range start stop step).
Proof.
  intros Hstep. unfold range, seqZ. rewrite <- list_fmap_compose.
  apply (StronglySorted_fmap _ lt); [|apply seq_ascending].
  intros x y Hxy. simpl. nia.
Qed.

Lemma elem_of_range (start stop step y : Z) :
  0 < step ->
  y ∈ range start stop step
  <-> exists j, 0 <= j /\ y = start + step * j /\ y < stop.
Proof.
  intros Hstep. unfold range. rewrite list_elem_of_fmap.
  setoid_rewrite elem_of_seqZ.
  assert (Hlen : forall j, j < (stop - start + step - 1) / step <-> start + step * j < stop).
  { intros j. split; intros H.
    - assert (step * (j + 1) <= stop - start + step - 1); [|lia].
      transitivity (step * ((stop - start + step - 1) / step));
        [|apply Z.mul_div_le; lia].
      apply Z.mul_le_mono_nonneg_l; lia.
    - apply Z.lt_le_trans with ((step * j + step) / step).
      + replace (step * j + step) with ((j + 1) * step) by lia.
        rewrite Z.div_mul by lia. lia.
      + apply Z.div_le_mono; lia. }
  split.
  - intros (j & -> & Hj). exists j. split_and!; [lia|done|]. apply Hlen. lia.
  - intros (j & Hj & -> & Hlt). exists j. split; [done|]. apply Hlen in Hlt. lia.
Qed.

Lemma find_first (f : Z -> bool) (l : list Z) (i x : Z) :
  StronglySorted Z.lt l -> find f l = Some i -> x ∈ l -> f x = true -> i <= x.
Proof.
  induction 1 as [|y l Hl IH Hy]; intros Hfind Hx Hfx; [by apply elem_of_nil in Hx|].
  simpl in Hfind. rewrite Forall_forall in Hy.
  destruct (f y) eqn:Hfy.
  - injection Hfind as <-. apply elem_of_cons in Hx as [->|Hx]; [lia|].
    specialize (Hy x Hx). lia.
  - apply elem_of_cons in Hx as [->|Hx]; [congruence|]. by apply IH.
Qed.

Lemma find_some_iff (f : Z -> bool) (l : list Z) :
  is_Some (find f l) <-> exists x, x ∈ l /\ f x = true.
Proof.
  induction l as [|y l IH]; simpl.
  - split; [by intros [? ?]|]. intros (x & Hx & _). by apply elem_of_nil in Hx.
  - destruct (f y) eqn:Hfy.
    + split; [|by eexists]. intros _. exists y. split; [by left|done].
    + rewrite IH. split; intros (x & Hx & Hfx); exists x.
      * split; [by right|done].
      * apply elem_of_cons in Hx as [->|Hx]; [congruence|done].
Qed.

Section build_round_1_closed.
Variable xor_values : gset Z.

Lemma probe_first_find (xor_value : Z) (candidates : list Z) (d : list (Z * Z)) :
  probe_first xor_values xor_value candidates d
  = match find (accepts xor_values) candidates with
    | Some i => od_set xor_value (i / 12) d
    | None => d
    end.
Proof.
  induction candidates as [|i rest IH]; simpl; [done|].
  by destruct (accepts xor_values i).
Qed.

Lemma build_fold_get (lows : list Z) (k : Z) : forall d,
  NoDup lows ->
  od_get k (fold_left
              (fun checksum_map xor_value =>
                 let remainder := Z.land (0x10000 - (xor_value * 12)) 0xFFFF in
                 probe_first xor_values xor_value
                             (range remainder 0xC0000 0x10000) checksum_map)
              lows d)
  = if decide (k ∈ lows)
    then match first_accepted xor_values k with
         | Some v => Some v
         | None => od_get k d
         end
    else od_get k d.
Proof.
  induction lows as [|x lows IH]; intros d Hnd.
  - by rewrite decide_False by apply not_elem_of_nil.
  - apply NoDup_cons in Hnd as [Hx Hnd].
    rewrite fold_left_cons_eq, IH by done. cbn zeta.
    rewrite probe_first_find.
    assert (Hget : od_get k
              (match find (accepts xor_values)
                       (range (Z.land (0x10000 - x * 12) 0xFFFF) 0xC0000 0x10000) with
               | Some i => od_set x (i / 12) d
               | None => d
               end)
            = if decide (x = k)
              then match first_accepted xor_values k with
                   | Some v => Some v
                   | None => od_get k d
                   end
              else od_get k d).
    { unfold first_accepted. destruct (decide (x = k)) as [Hxk|Hxk].
      - rewrite Hxk. destruct (find _ _); simpl; [|done].
        by rewrite od_get_set, decide_True.
      - destruct (find _ _); [|done]. by rewrite od_get_set, decide_False. }
    rewrite Hget. destruct (decide (x = k)) as [->|Hxk].
    + rewrite (decide_False (P := k ∈ lows)) by done.
      by rewrite decide_True by (by left).
    + destruct (decide (k ∈ lows)) as [Hk|Hk].
      * by rewrite decide_True by (by right).
      * rewrite decide_False; [done|]. intros [?|?]%elem_of_cons; congruence.
Qed.

(** What [checksum_map[k]] is, and when the key exists. *)
Lemma od_get_build (k : Z) :
  od_get k (build_round_1_map xor_values)
  = if decide (k ∈ xor_values) then first_accepted xor_values k else None.
Proof.
  unfold build_round_1_map. rewrite build_fold_get by apply NoDup_sorted. simpl.
  destruct (decide (k ∈ sorted xor_values)) as [Hk|Hk];
    rewrite elem_of_sorted in Hk.
  - rewrite decide_True by done. by destruct (first_accepted xor_values k).
  - by rewrite decide_False.
Qed.
End build_round_1_closed.

Lemma remainder_total (low high : Z) :
  0 <= high < 2 ^ 16 ->
  (12 * low + 12 * high) mod 0x10000 = 0 ->
  12 * high ∈ range (Z.land (0x10000 - (low * 12)) 0xFFFF) 0xC0000 0x10000.
Proof.
  intros Hh Hmod. apply elem_of_range; [lia|].
  apply (Z.mod_divide _ 0x10000 ltac:(lia)) in Hmod as [q Hq].
  change 0xFFFF with (Z.ones 16). rewrite Z.land_ones by lia.
  pose proof (Z.div_mod (0x10000 - low * 12) (2 ^ 16) ltac:(lia)) as Hd.
  pose proof (Z.mod_pos_bound (0x10000 - low * 12) (2 ^ 16) ltac:(lia)) as Hr.
  change (2 ^ 16) with 0x10000 in *.
  exists (q - 1 + (0x10000 - low * 12) / 0x10000).
  lia.
Qed.

Lemma first_accepted_least (xor_values : gset Z) (low high : Z) :
  0 <= high < 2 ^ 16 -> stored_ok xor_values low high ->
  exists v, first_accepted xor_values low = Some v
       /\ 0 <= v <= high /\ stored_ok xor_values low v.
Proof.
  intros Hh (Hmod & Hin & Hbit).
  pose proof (remainder_total low high Hh Hmod) as Hrange.
  assert (Hdiv : 12 * high / 12 = high) by (rewrite Z.mul_comm; apply Z.div_mul; lia).
  assert (Hacc : accepts xor_values (12 * high) = true).
  { unfold accepts. rewrite Hdiv, !andb_true_iff, !bool_decide_eq_true.
    split_and!; [|done..]. rewrite Z.mul_comm. apply Z.mod_mul. lia. }
  destruct (find (accepts xor_values)
              (range (Z.land (0x10000 - (low * 12)) 0xFFFF) 0xC0000 0x10000))
    as [i|] eqn:Hfind.
  - exists (i / 12). unfold first_accepted. rewrite Hfind. split; [done|].
    pose proof (find_first _ _ _ _ (range_ascending _ _ 0x10000 ltac:(lia)) Hfind Hrange Hacc).
    apply find_some in Hfind as [Hi Hai]. apply list_elem_of_In in Hi.
    apply elem_of_range in Hi as (j & Hj & Hij & _); [|lia].
    split; [|by apply (accepts_stored_ok _ _ _ j)].
    change 0xFFFF with (Z.ones 16) in Hij. rewrite Z.land_ones in Hij by lia.
    pose proof (Z.mod_pos_bound (0x10000 - low * 12) (2 ^ 16) ltac:(lia)).
    split; [apply Z.div_pos; lia|]. rewrite <- Hdiv. apply Z.div_le_mono; lia.
  - assert (Hsome : is_Some (find (accepts xor_values)
              (range (Z.land (0x10000 - (low * 12)) 0xFFFF) 0xC0000 0x10000)))
      by (apply find_some_iff; eauto).
    rewrite Hfind in Hsome. by destruct Hsome.
Qed.

(** ** C4 *)

(** The entry [get_round_1] builds for a low holds every accepted high. *)
Lemma get_round_1_entry_complete (key_lows key_highs : gset Z) (low high : Z) :
  low ∈ key_lows ->
  0 <= low < 2 ^ 16 -> 0 <= high < 2 ^ 16 ->
  high ∈ key_highs ->
  (12 * low + 12 * high) mod 0x10000 = 0 ->
  exists highs : list Z,
    od_get low (get_round_1 key_lows key_highs) = Some highs
    /\ high ∈ highs
    /\ highs = highs_of key_highs low
    /\ StronglySorted Z.lt highs.
Proof.
  intros Hlow Hl Hh Hmem Hmod.
  assert (Hin : high ∈ highs_of key_highs low).
  { apply elem_of_highs_of. split; [done|].
    apply (Z.mod_divide _ 0x10000 ltac:(lia)) in Hmod as [q Hq].
    exists ((low + high) / 16384).
    pose proof (Z.div_mod (low + high) 16384 ltac:(lia)) as Hd.
    pose proof (Z.mod_pos_bound (low + high) 16384 ltac:(lia)) as Hr.
    assert ((low + high) mod 16384 = 0) by lia.
    assert (0 <= (low + high) / 16384 < 8); [|lia].
    split; [apply Z.div_pos; lia|apply Z.div_lt_upper_bound; lia]. }
  exists (highs_of key_highs low). rewrite od_get_round_1.
  rewrite decide_True.
  - split_and!; [done..|apply highs_of_ascending].
  - split; [done|]. intros Hnil. rewrite Hnil in Hin. by apply elem_of_nil in Hin.
Qed.

(** A low with several highs, a low with none and a low with one. *)
Example round_1_zero_one_several :
  get_round_1 {[ 0; 5; 0x2000 ]} {[ 0; 0x2000; 0x4000 ]}
  = [(0, [0; 0x4000]); (0x2000, [0x2000])].
Proof. by vm_compute. Qed.

(** C4, the claim as stated fails for [build_round_1_map]: its loop
    stops at the first accepted total.  With the set {0, 0x8000} the high
    0x8000 is in the set, has bit 14 clear and satisfies
    [(12*0x8000 + 12*0x8000) mod 0x10000 = 0], but the entry of 0x8000 is
    the single value 0, and so is the entry of 0: 0x8000 is the high of
    no pair, while [get_round_1] keeps it. *)
Lemma build_round_1_map_drops_high :
  0x8000 ∈ ({[ 0; 0x8000 ]} : gset Z)
  /\ (12 * 0x8000 + 12 * 0x8000) mod 0x10000 = 0
  /\ Z.land 0x8000 0x4000 = 0
  /\ build_round_1_map {[ 0; 0x8000 ]} = [(0, 0); (0x8000, 0)]
  /\ od_get 0x8000 (build_round_1_map {[ 0; 0x8000 ]}) = Some 0
  /\ od_get 0x8000 (get_round_1 {[ 0; 0x8000 ]} {[ 0; 0x8000 ]}) = Some [0; 0x8000].
Proof. split_and!; [set_solver|by vm_compute..]. Qed.

(** C4, amended. For Words [low] and [high] with
    [(12*low + 12*high) mod 0x10000 = 0]: when [low] is in the low set
    and [high] in the high set, the map [get_round_1] returns has an
    entry for [low] that holds [high]; the entry is the list of all
    accepted values in the order the checksum totals are walked, which is
    strictly ascending.  [build_round_1_map] keeps one high per xor
    value: when [low] and [high] are in its set and [high] has bit 14
    clear, it has an entry for [low], and the value stored is the least
    Word of the set with bit 14 clear that satisfies the equation with
    [low]; it is [high] only when [high] is that least one. *)
Theorem round_1_retained_highs (key_lows key_highs : gset Z) (low high : Z) :
  low ∈ key_lows ->
  0 <= low < 2 ^ 16 -> 0 <= high < 2 ^ 16 ->
  high ∈ key_highs ->
  (12 * low + 12 * high) mod 0x10000 = 0 ->
  (exists highs : list Z,
     od_get low (get_round_1 key_lows key_highs) = Some highs
     /\ high ∈ highs
     /\ highs = highs_of key_highs low
     /\ StronglySorted Z.lt highs)
  /\ (forall xor_values : gset Z,
        low ∈ xor_values -> high ∈ xor_values -> Z.land high 0x4000 = 0 ->
        exists v : Z,
          od_get low (build_round_1_map xor_values) = Some v
          /\ (12 * low + 12 * v) mod 0x10000 = 0
          /\ v ∈ xor_values /\ Z.land v 0x4000 = 0
          /\ (forall h : Z,
                0 <= h < 2 ^ 16 -> h ∈ xor_values -> Z.land h 0x4000 = 0 ->
                (12 * low + 12 * h) mod 0x10000 = 0 -> 0 <= v <= h)
          /\ (forall h : Z,
                od_get low (build_round_1_map xor_values) = Some h -> h = v)).
Proof.
  intros Hlow Hl Hh Hmem Hmod. split; [by apply get_round_1_entry_complete|].
  intros xor_values Hlow' Hin Hbit.
  destruct (first_accepted_least xor_values low high Hh) as (v & Hv & Hle & Hok);
    [done|].
  destruct Hok as (Hvmod & Hvin & Hvbit).
  exists v. rewrite od_get_build, decide_True by done.
  split_and!; [done..| |congruence].
  intros h Hhw Hhin Hhbit Hhmod.
  destruct (first_accepted_least xor_values low h Hhw) as (v' & Hv' & Hle' & _);
    [done|].
  rewrite Hv in Hv'. injection Hv' as <-. done.
Qed.

Lemma round_1_retained_highs_witness :
  (exists highs : list Z,
     od_get 0 (get_round_1 {[ 0; 0x8000 ]} {[ 0; 0x8000 ]}) = Some highs
     /\ 0x8000 ∈ highs)
  /\ (exists v : Z,
        od_get 0 (build_round_1_map {[ 0; 0x8000 ]}) = Some v /\ 0 <= v <= 0x8000).
Proof.
  destruct (round_1_retained_highs {[ 0; 0x8000 ]} {[ 0; 0x8000 ]} 0 0x8000)
    as [(highs & Hget & Hin & _) Hbuild].
  - set_solver.
  - lia.
  - lia.
  - set_solver.
  - reflexivity.
  - split; [exists highs; split; assumption|].
    destruct (Hbuild {[ 0; 0x8000 ]}) as (v & Hv & _ & _ & _ & Hleast & _).
    + set_solver.
    + set_solver.
    + reflexivity.
    + exists v. split; [assumption|]. apply Hleast.
      * lia.
      * set_solver.
      * reflexivity.
      * reflexivity.
Defined.

(** ** [calc_messages] *)

Lemma Ret_inj {A : Type} (x y : A) : Ret x = Ret y -> x = y.
Proof. congruence. Qed.

Lemma fold_left_preserves {A B : Type} (P : A -> Prop) (f : A -> B -> A) (l : list B) :
  (forall acc x, P acc -> P (f acc x)) -> forall acc, P acc -> P (fold_left f l acc).
Proof. intros Hf. induction l as [|x l IH]; intros acc Hacc; simpl; auto. Qed.

Lemma masked_checksum_range (x : Z) : 0 <= Z.land x MASK_16 < 0x10000.
Proof.
  change MASK_16 with (Z.ones 16). rewrite Z.land_ones by lia.
  apply Z.mod_pos_bound. lia.
Qed.

(** With [key_high = 0] the comparison of line 53 is against 0x10000,
    which no masked checksum equals. *)
Lemma try_second_zero (target_species key_low new_key_high : Z)
    (messages : list (list (Z * Z))) :
  try_second target_species key_low 0 messages new_key_high = messages.
Proof.
  unfold try_second. case_decide; [done|].
  rewrite decide_False; [done|].
  pose proof (masked_checksum_range
                ((target_species * 12) + (new_key_high * 11) + Z.lxor new_key_high 0)).
  change (Z.shiftl 1 16 - 0) with 0x10000. lia.
Qed.

Section no_zero_chain.
Variable target_species : Z.

Lemma try_second_no_zero_chain (key_low key_high new_key_high : Z) messages :
  no_zero_chain messages ->
  no_zero_chain (try_second target_species key_low key_high messages new_key_high).
Proof.
  intros Hm. destruct (decide (key_high = 0)) as [->|Hk].
  - by rewrite try_second_zero.
  - unfold try_second. repeat case_decide; try done.
    intros kl second [Hin|Hin%list_elem_of_singleton]%elem_of_app.
    + by apply (Hm kl second).
    + simpl in Hin. congruence.
Qed.
End no_zero_chain.

(** ** C10 *)

(** C10. In every list [calc_messages] returns, no length-2 chain starts
    with a pair whose [key_high] is 0: for such a pair the loop body adds
    nothing whatever the candidate, because [target_checksum] is 0x10000
    and the masked checksum is below it.  This rejects candidates whose
    masked checksum is 0: for target 0 and the set {0} the pair (0, 0)
    yields the length-1 chain only. *)
Theorem zero_key_high_never_chains (target_species : Z) (xor_values : gset Z)
    (round_1_map : list (Z * Z)) (messages : list (list (Z * Z))) :
  calc_messages target_species xor_values round_1_map = Ret messages ->
  (forall key_low second, [(key_low, 0); second] ∉ messages)
  /\ (forall key_low msgs new_key_high,
        try_second target_species key_low 0 msgs new_key_high = msgs)
  /\ (Z.land ((0 * 12) + (0 * 11) + Z.lxor 0 0) MASK_16 = 0
      /\ calc_messages 0 {[ 0 ]} (build_round_1_map {[ 0 ]}) = Ret [[(0, 0)]]).
Proof.
  unfold calc_messages. case_decide; [done|]. intros <-%Ret_inj.
  split_and!; [|intros; apply try_second_zero|done|by vm_compute].
  apply (fold_left_preserves no_zero_chain).
  - intros acc [key_low key_high] Hacc.
    apply (fold_left_preserves no_zero_chain); [|done].
    intros acc' x Hacc'. by apply try_second_no_zero_chain.
  - intros kl second. destruct (od_get target_species round_1_map); simpl.
    + rewrite list_elem_of_singleton. congruence.
    + apply not_elem_of_nil.
Qed.

Lemma zero_key_high_never_chains_witness :
  calc_messages 0x8000 {[ 0; 0x8000 ]} (build_round_1_map {[ 0; 0x8000 ]})
  = Ret [[(0x8000, 0)]]
  /\ forall key_low second, [(key_low, 0); second] ∉ [[(0x8000, 0)]].
Proof.
  assert (H : calc_messages 0x8000 {[ 0; 0x8000 ]} (build_round_1_map {[ 0; 0x8000 ]})
              = Ret [[(0x8000, 0)]]) by (by vm_compute).
  split; [exact H|].
  exact (proj1 (zero_key_high_never_chains _ _ _ _ H)).
Defined.

(** ** C7 *)

(** C7. [calc_messages] raises exactly when the target is not in the
    xor-value set; what it raises is the [ValueError] that carries the
    target.  The test is the first statement, so a failing call returns
    no list of chains, and a call with an admissible target returns one. *)
Theorem calc_messages_fails_iff (target_species : Z) (xor_values : gset Z)
    (round_1_map : list (Z * Z)) :
  ((exists e, calc_messages target_species xor_values round_1_map = Raise e)
   <-> target_species ∉ xor_values)
  /\ (forall e, calc_messages target_species xor_values round_1_map = Raise e ->
            e = ValueError "Species cannot be generated with provided xor map"
                           target_species)
  /\ ((exists messages, calc_messages target_species xor_values round_1_map = Ret messages)
      <-> target_species ∈ xor_values)
  /\ calc_messages target_species xor_values round_1_map <> Fuel.
Proof.
  unfold calc_messages. case_decide as Hin.
  - split_and!; [naive_solver|congruence| |done].
    split; [intros [? ?]; done|]. intros ?. done.
  - split_and!; [|done| |done].
    + split; [intros [? ?]; done|]. intros ?. done.
    + split; [done|]. intros _. eauto.
Qed.

(** ** [get_round_2] *)

Lemma for_each_preserves {S B : Type} (P : S -> Prop) (body : S -> B -> res S)
    (l : list B) :
  (forall st x st', x ∈ l -> P st -> body st x = Ret st' -> P st') ->
  forall st st', P st -> for_each body l st = Ret st' -> P st'.
Proof.
  induction l as [|x l IH]; intros Hbody st st' Hst; simpl.
  - by intros [= <-].
  - destruct (body st x) as [st1| |] eqn:Hx; simpl; [|done..].
    apply IH; [|by apply (Hbody st x); [left|..]].
    intros st2 y st3 Hy. apply Hbody. by right.
Qed.

Lemma for_each_no_fuel {S B : Type} (body : S -> B -> res S) (l : list B) :
  (forall st x, body st x <> Fuel) -> forall st, for_each body l st <> Fuel.
Proof.
  intros Hbody. induction l as [|x l IH]; intros st; simpl; [done|].
  destruct (body st x) eqn:Hx; simpl; [apply IH|done|]. by apply Hbody in Hx.
Qed.

Lemma extends_refl (st : maps) : extends st st.
Proof. by split. Qed.

Lemma extends_trans (st1 st2 st3 : maps) :
  extends st1 st2 -> extends st2 st3 -> extends st1 st3.
Proof. intros [? ?] [? ?]. split; by etrans. Qed.

(** *** Entries are only added *)

Section monotone.
Variables (key_lows : list Z) (key_highs : gset Z) (move_pps : gmap Z Z).

(** The body of the inner loop with the bit loop run to its end. *)
Lemma solve_low2_unfold (low1 high1 checksum pps_low pps_high low2 : Z) (st : maps) :
  solve_low2 key_highs low1 high1 checksum pps_low pps_high st low2
  = if decide (low2 ∈ dom (round_2 st)) then Ret st
    else Ret (record_solution key_highs low1 high1 low2
                (carried pps_high (checksum - (11 * low2) - Z.lxor pps_low low2) 16) st).
Proof.
  unfold solve_low2. case_decide; [done|]. by rewrite solve_bits_carried.
Qed.

Lemma record_solution_extends (low1 high1 low2 : Z) (solutions : list Z) (st : maps) :
  same_keys st ->
  extends st (record_solution key_highs low1 high1 low2 solutions st)
  /\ same_keys (record_solution key_highs low1 high1 low2 solutions st).
Proof.
  intros Hkeys. induction solutions as [|s rest IH]; simpl.
  - split; [apply extends_refl|done].
  - case_decide as Hs; [done|].
    case_decide as Hfresh; [|split; [apply extends_refl|done]].
    assert (Hnone2 : round_2 st !! low2 = None) by (by apply not_elem_of_dom).
    assert (Hnone1 : round_2_to_round_1 st !! low2 = None).
    { apply not_elem_of_dom. by rewrite <- Hkeys. }
    split.
    + split; simpl; by apply insert_subseteq.
    + unfold same_keys in *. simpl. rewrite !dom_insert_L. by rewrite Hkeys.
Qed.

(** The guard of line 106: with an entry for [low2] the loop over the
    solver results changes nothing. *)
Lemma record_solution_present (low1 high1 low2 : Z) (solutions : list Z) (st : maps) :
  low2 ∈ dom (round_2 st) ->
  record_solution key_highs low1 high1 low2 solutions st = st.
Proof.
  intros Hdom. induction solutions as [|s rest IH]; simpl; [done|].
  case_decide; [done|]. by rewrite decide_False by (intros Hn; by apply Hn).
Qed.

(** The [break] of line 109: the first solver result that is in
    [key_highs] is recorded and the results after it are not looked at. *)
Lemma record_solution_first (low1 high1 low2 s : Z) (skipped rest : list Z) (st : maps) :
  (forall x, x ∈ skipped -> x ∉ key_highs) ->
  s ∈ key_highs ->
  low2 ∉ dom (round_2 st) ->
  record_solution key_highs low1 high1 low2 (skipped ++ s :: rest) st
  = Maps (<[low2 := s]> (round_2 st)) (<[low2 := (low1, high1)]> (round_2_to_round_1 st)).
Proof.
  intros Hskip Hs Hfresh. induction skipped as [|x skipped IH]; simpl.
  - rewrite decide_False by (intros Hn; by apply Hn). by rewrite decide_True.
  - rewrite decide_True by (apply Hskip; by left).
    apply IH. intros y Hy. apply Hskip. by right.
Qed.

(** Solver results that come later leave what the earlier ones recorded
    as it is. *)
Lemma record_solution_prefix (low1 high1 low2 : Z) (sols1 sols2 : list Z) (st : maps) :
  same_keys st ->
  extends (record_solution key_highs low1 high1 low2 sols1 st)
          (record_solution key_highs low1 high1 low2 (sols1 ++ sols2) st).
Proof.
  intros Hkeys. induction sols1 as [|s sols1 IH]; simpl.
  - by apply record_solution_extends.
  - case_decide; [done|]. case_decide; apply extends_refl.
Qed.

(** A [low2] that already has an entry is skipped before any solving. *)
Lemma solve_low2_skip (low1 high1 checksum pps_low pps_high low2 : Z) (st : maps) :
  low2 ∈ dom (round_2 st) ->
  solve_low2 key_highs low1 high1 checksum pps_low pps_high st low2 = Ret st.
Proof. intros Hdom. unfold solve_low2. by rewrite decide_True. Qed.

Lemma solve_low2_extends (low1 high1 checksum pps_low pps_high low2 : Z) (st st' : maps) :
  same_keys st ->
  solve_low2 key_highs low1 high1 checksum pps_low pps_high st low2 = Ret st' ->
  extends st st' /\ same_keys st'.
Proof.
  intros Hkeys. rewrite solve_low2_unfold. case_decide as Hdom; intros <-%Ret_inj.
  - split; [apply extends_refl|done].
  - by apply record_solution_extends.
Qed.

Lemma solve_low2_loop_extends (low1 high1 checksum pps_low pps_high : Z)
    (lows : list Z) (st st' : maps) :
  same_keys st ->
  for_each (solve_low2 key_highs low1 high1 checksum pps_low pps_high) lows st = Ret st' ->
  extends st st' /\ same_keys st'.
Proof.
  intros Hkeys.
  apply (for_each_preserves (fun s => extends st s /\ same_keys s));
    [|split; [apply extends_refl|done]].
  intros s low2 s' _ [He Hk] Hstep.
  apply solve_low2_extends in Hstep as [He' Hk']; [|done].
  split; [by apply (extends_trans _ s)|done].
Qed.

Lemma solve_pair_extends (pair : Z * Z) (st st' : maps) :
  same_keys st ->
  solve_pair key_lows key_highs move_pps st pair = Ret st' ->
  extends st st' /\ same_keys st'.
Proof.
  destruct pair as [low1 high1]. intros Hkeys. unfold solve_pair.
  case_decide as Hlow1; [intros [= <-]; split; [apply extends_refl|done]|].
  destruct (getitem move_pps low1) as [base_low| |]; simpl; [|done..].
  destruct (getitem move_pps high1) as [base_high| |]; simpl; [|done..].
  by apply solve_low2_loop_extends.
Qed.

Lemma solve_pairs_extends (l : list (Z * Z)) (st st' : maps) :
  same_keys st ->
  for_each (solve_pair key_lows key_highs move_pps) l st = Ret st' ->
  extends st st' /\ same_keys st'.
Proof.
  intros Hkeys.
  apply (for_each_preserves (fun s => extends st s /\ same_keys s));
    [|split; [apply extends_refl|done]].
  intros s pair s' _ [He Hk] Hstep.
  apply solve_pair_extends in Hstep as [He' Hk']; [|done].
  split; [by apply (extends_trans _ s)|done].
Qed.

Lemma for_each_app {S B : Type} (body : S -> B -> res S) (l1 l2 : list B) (st : S) :
  for_each body (l1 ++ l2) st = bind (for_each body l1 st) (for_each body l2).
Proof.
  revert st. induction l1 as [|x l1 IH]; intros st; simpl; [done|].
  destruct (body st x); simpl; [apply IH|done..].
Qed.
End monotone.

(** *** Recorded entries solve the two-step equation *)

Section round_2.
Variables (key_lows : list Z) (key_highs : gset Z) (move_pps : gmap Z Z).
Variable pairs : list (Z * Z).

Section one_pair.
Variables low1 high1 base_low base_high : Z.
Hypothesis Hpair : (low1, high1) ∈ pairs.
Hypothesis Hlow1 : low1 <> 0.
Hypothesis Hbase_low : move_pps !! low1 = Some base_low.
Hypothesis Hbase_high : move_pps !! high1 = Some base_high.

Local Abbreviation P_low := (packed_low low1 base_low base_high).
Local Abbreviation P_high := (packed_high low1 base_low base_high).
Local Abbreviation checksum := ((low1 * 11) + (high1 * 11) + P_low + P_high).

Lemma solution_chain_equation (low2 solution : Z) :
  solves_mod (Z.lxor P_high high1)
             (checksum - (11 * low2) - Z.lxor (Z.lxor P_low low1) low2)
             16 solution ->
  chain_equation P_low P_high low1 high1 low2 solution.
Proof.
  intros [_ He]. unfold chain_equation, equation in *.
  replace (11 * low2 + Z.lxor (Z.lxor P_low low1) low2 + 11 * solution
           + Z.lxor (Z.lxor P_high high1) solution)
    with ((11 * low2 + Z.lxor (Z.lxor P_low low1) low2)
          + (11 * solution + Z.lxor (Z.lxor P_high high1) solution)) by lia.
  rewrite <- Z.add_mod_idemp_r, He, Z.add_mod_idemp_r by lia.
  f_equal. lia.
Qed.

Lemma record_solution_ok (low2 : Z) (solutions : list Z) (st : maps) :
  (forall s, s ∈ solutions ->
     chain_equation P_low P_high low1 high1 low2 s) ->
  same_keys st -> chain_ok pairs key_highs move_pps st ->
  chain_ok pairs key_highs move_pps
           (record_solution key_highs low1 high1 low2 solutions st).
Proof.
  intros Hsol Hkeys Hok. induction solutions as [|s rest IH]; simpl; [done|].
  case_decide as Hs; [apply IH; intros; apply Hsol; by right|].
  case_decide as Hfresh; [|done].
  intros k v. simpl. destruct (decide (low2 = k)) as [<-|Hk].
  - rewrite !lookup_insert_eq. intros [= <-].
    exists low1, high1, base_low, base_high.
    split_and!; try done. apply Hsol. by left.
  - rewrite !lookup_insert_ne by done. apply Hok.
Qed.

Lemma solve_low2_ok (low2 : Z) (st st' : maps) :
  same_keys st -> chain_ok pairs key_highs move_pps st ->
  solve_low2 key_highs low1 high1 checksum
             (Z.lxor P_low low1) (Z.lxor P_high high1) st low2 = Ret st' ->
  chain_ok pairs key_highs move_pps st'.
Proof.
  intros Hkeys Hok. rewrite solve_low2_unfold. case_decide as Hdom; intros <-%Ret_inj.
  - done.
  - apply record_solution_ok; [|done..].
    intros s Hs. apply solution_chain_equation.
    by apply (carried_spec _ _ 16) in Hs.
Qed.

Lemma solve_low2_loop_ok (lows : list Z) (st st' : maps) :
  same_keys st -> chain_ok pairs key_highs move_pps st ->
  for_each (solve_low2 key_highs low1 high1 checksum
                       (Z.lxor P_low low1) (Z.lxor P_high high1)) lows st = Ret st' ->
  chain_ok pairs key_highs move_pps st'.
Proof.
  intros Hkeys Hok Hrun.
  apply (for_each_preserves
           (fun s => same_keys s /\ chain_ok pairs key_highs move_pps s)
           _ lows) in Hrun as [_ ?]; [done| |done].
  intros s low2 s' _ [Hk Ho] Hstep. split.
  - by apply solve_low2_extends in Hstep as [_ ?].
  - by apply (solve_low2_ok low2 s).
Qed.
End one_pair.

Lemma solve_pair_ok (pair : Z * Z) (st st' : maps) :
  pair ∈ pairs ->
  same_keys st -> chain_ok pairs key_highs move_pps st ->
  solve_pair key_lows key_highs move_pps st pair = Ret st' ->
  chain_ok pairs key_highs move_pps st'.
Proof.
  destruct pair as [low1 high1]. intros Hpair Hkeys Hok.
  unfold solve_pair. case_decide as Hlow1; [by intros [= <-]|].
  unfold getitem. destruct (move_pps !! low1) as [base_low|] eqn:Hbl; simpl; [|done].
  destruct (move_pps !! high1) as [base_high|] eqn:Hbh; simpl; [|done].
  by apply solve_low2_loop_ok.
Qed.

Lemma solve_pairs_ok (l : list (Z * Z)) (st st' : maps) :
  (forall pair, pair ∈ l -> pair ∈ pairs) ->
  same_keys st -> chain_ok pairs key_highs move_pps st ->
  for_each (solve_pair key_lows key_highs move_pps) l st = Ret st' ->
  same_keys st' /\ chain_ok pairs key_highs move_pps st'.
Proof.
  intros Hl Hkeys Hok.
  apply (for_each_preserves
           (fun s => same_keys s /\ chain_ok pairs key_highs move_pps s));
    [|done].
  intros s pair s' Hin [Hk Ho] Hstep. split.
  - by apply solve_pair_extends in Hstep as [_ ?].
  - apply (solve_pair_ok pair s); auto.
Qed.
End round_2.

Lemma get_round_2_ok (xor_values : gset Z) (key_lows : list Z) (key_highs : gset Z)
    (move_pps : gmap Z Z) (final : maps) :
  get_round_2 xor_values key_lows key_highs move_pps = Ret final ->
  same_keys final
  /\ chain_ok (round_1_pairs (get_round_1 xor_values xor_values))
              key_highs move_pps final.
Proof.
  apply solve_pairs_ok; [done|done|]. intros low2 high2. simpl.
  by rewrite lookup_empty.
Qed.

Lemma empty_same_keys : same_keys (Maps ∅ ∅).
Proof. done. Qed.

(** The pairs the generator of lines 52-56 yields. *)
Lemma elem_of_round_1_pairs (key_lows key_highs : gset Z) (low high : Z) :
  (low, high) ∈ round_1_pairs (get_round_1 key_lows key_highs)
  <-> low ∈ key_lows /\ high ∈ highs_of key_highs low.
Proof.
  unfold round_1_pairs. rewrite get_round_1_entries, list_elem_of_bind. split.
  - intros ([k hs] & Hin & Hent). apply list_elem_of_bind in Hin as (h & Hh & Hhs).
    apply list_elem_of_singleton in Hh as [= -> ->].
    apply list_elem_of_bind in Hent as (l & Hent & Hl).
    apply elem_of_sorted in Hl. unfold round_1_entry in Hent.
    destruct (highs_of key_highs l) eqn:E; [by apply elem_of_nil in Hent|].
    apply list_elem_of_singleton in Hent as [= -> ->]. by rewrite E.
  - intros [Hlow Hhigh]. exists (low, highs_of key_highs low). split.
    + apply list_elem_of_bind. exists high. split; [by left|done].
    + apply list_elem_of_bind. exists low. split; [|by apply elem_of_sorted].
      unfold round_1_entry. destruct (highs_of key_highs low) eqn:E;
        [by apply elem_of_nil in Hhigh|by left].
Qed.

(** [get_round_2] always returns or raises [KeyError]; it returns when
    every xor value has a base PP. *)
Lemma get_round_2_returns (xor_values : gset Z) (key_lows : list Z)
    (key_highs : gset Z) (move_pps : gmap Z Z) :
  get_round_2 xor_values key_lows key_highs move_pps <> Fuel
  /\ ((forall x, x ∈ xor_values -> is_Some (move_pps !! x)) ->
      exists final, get_round_2 xor_values key_lows key_highs move_pps = Ret final).
Proof.
  assert (Hlow2 : forall low1 high1 checksum pps_low pps_high st low2,
            exists st', solve_low2 key_highs low1 high1 checksum pps_low pps_high st low2
                   = Ret st').
  { intros. rewrite solve_low2_unfold. case_decide; eexists; reflexivity. }
  assert (Hloop : forall low1 high1 checksum pps_low pps_high lows st,
            exists st', for_each (solve_low2 key_highs low1 high1 checksum pps_low pps_high)
                            lows st = Ret st').
  { intros until lows. induction lows as [|low2 lows IH]; intros st; simpl; [by eexists|].
    destruct (Hlow2 low1 high1 checksum pps_low pps_high st low2) as [st1 ->]. apply IH. }
  split.
  - apply for_each_no_fuel. intros st [low1 high1]. unfold solve_pair, getitem.
    case_decide; [done|].
    destruct (move_pps !! low1); simpl; [|done].
    destruct (move_pps !! high1); simpl; [|done].
    match goal with |- for_each ?b ?l ?s <> _ =>
      destruct (Hloop low1 high1
                  (low1 * 11 + high1 * 11 + packed_low low1 z z0 + packed_high low1 z z0)
                  (Z.lxor (packed_low low1 z z0) low1)
                  (Z.lxor (packed_high low1 z z0) high1) key_lows st) as [st' ->] end.
    done.
  - intros Hpp. unfold get_round_2.
    assert (Hpairs : forall pair, pair ∈ round_1_pairs (get_round_1 xor_values xor_values) ->
              is_Some (move_pps !! pair.1) /\ is_Some (move_pps !! pair.2)).
    { intros [low high] [Hl Hh]%elem_of_round_1_pairs.
      apply elem_of_highs_of in Hh as [Hh _]. split; by apply Hpp. }
    revert Hpairs. generalize (round_1_pairs (get_round_1 xor_values xor_values)).
    generalize (Maps ∅ ∅). intros st l. revert st.
    induction l as [|[low1 high1] l IH]; intros st Hl; [by eexists|].
    cbn [for_each].
    destruct (Hl (low1, high1)) as [[bl Hbl] [bh Hbh]]; [by left|]. cbn [fst snd] in *.
    assert (Hstep : exists st1, solve_pair key_lows key_highs move_pps st (low1, high1)
                           = Ret st1).
    { unfold solve_pair, getitem. case_decide; [by eexists|].
      rewrite Hbl, Hbh. simpl. apply Hloop. }
    destruct Hstep as [st1 ->]. cbn [bind]. apply IH. intros pair Hp. apply Hl. by right.
Qed.

(** ** C2 *)

(** C2. For every [low2] in the [round_2] dictionary [get_round_2]
    returns, with [high2 = round_2[low2]]: [round_2_to_round_1[low2]] is a
    pair [(low1, high1)] of round 1 whose two base PPs are in [move_pps],
    and with [P_low], [P_high] the PP words packed from them,
    [11*low2 + ((P_low XOR low1) XOR low2) + 11*high2
     + ((P_high XOR high1) XOR high2)] equals
    [11*low1 + 11*high1 + P_low + P_high] modulo 2^16; and [high2] is in
    [key_highs]. *)
Theorem chain_map_solves_equation (xor_values : gset Z) (key_lows : list Z)
    (key_highs : gset Z) (move_pps : gmap Z Z) (final : maps) (low2 high2 : Z) :
  get_round_2 xor_values key_lows key_highs move_pps = Ret final ->
  round_2 final !! low2 = Some high2 ->
  exists low1 high1 base_low base_high,
    round_2_to_round_1 final !! low2 = Some (low1, high1)
    /\ (low1, high1) ∈ round_1_pairs (get_round_1 xor_values xor_values)
    /\ move_pps !! low1 = Some base_low
    /\ move_pps !! high1 = Some base_high
    /\ (let P_low := packed_low low1 base_low base_high in
        let P_high := packed_high low1 base_low base_high in
        (11 * low2 + Z.lxor (Z.lxor P_low low1) low2
         + 11 * high2 + Z.lxor (Z.lxor P_high high1) high2) mod 2 ^ 16
        = (11 * low1 + 11 * high1 + P_low + P_high) mod 2 ^ 16)
    /\ high2 ∈ key_highs.
Proof.
  intros Hrun Hlow2. apply get_round_2_ok in Hrun as [_ Hok].
  destruct (Hok low2 high2 Hlow2)
    as (low1 & high1 & bl & bh & Hback & Hpair & _ & Hbl & Hbh & Hin & Heq).
  exists low1, high1, bl, bh. split_and!; done.
Qed.

Lemma chain_map_solves_equation_witness :
  get_round_2 {[ 0x4000 ]} [0x4000] {[ 0x2580 ]} {[ 0x4000 := 35 ]}
  = Ret (Maps {[ 0x4000 := 0x2580 ]} {[ 0x4000 := (0x4000, 0x4000) ]})
  /\ exists low1 high1 base_low base_high,
      ({[ 0x4000 := (0x4000, 0x4000) ]} : gmap Z (Z * Z)) !! 0x4000 = Some (low1, high1)
      /\ ({[ 0x4000 := 35 ]} : gmap Z Z) !! low1 = Some base_low
      /\ ({[ 0x4000 := 35 ]} : gmap Z Z) !! high1 = Some base_high
      /\ chain_equation (packed_low low1 base_low base_high)
                        (packed_high low1 base_low base_high)
                        low1 high1 0x4000 0x2580.
Proof.
  assert (Hrun : get_round_2 {[ 0x4000 ]} [0x4000] {[ 0x2580 ]} {[ 0x4000 := 35 ]}
                 = Ret (Maps {[ 0x4000 := 0x2580 ]} {[ 0x4000 := (0x4000, 0x4000) ]}))
    by (vm_compute; reflexivity).
  split; [exact Hrun|].
  destruct (chain_map_solves_equation _ _ _ _ _ 0x4000 0x2580 Hrun)
    as (low1 & high1 & bl & bh & Hback & _ & Hbl & Hbh & Heq & _).
  - reflexivity.
  - exists low1, high1, bl, bh. split_and!; assumption.
Defined.

(** ** C6 *)

(** C6. A round-1 pair whose low is 0 is skipped: the loop body returns
    the maps as they are, before any lookup or solving.  So every
    back-reference in the [round_2_to_round_1] dictionary [get_round_2]
    returns has a first component other than 0, belongs to a recorded
    [low2], and is a pair of round 1. *)
Theorem sentinel_never_chain_source (xor_values : gset Z) (key_lows : list Z)
    (key_highs : gset Z) (move_pps : gmap Z Z) (final : maps) :
  get_round_2 xor_values key_lows key_highs move_pps = Ret final ->
  (forall low2 low1 high1,
     round_2_to_round_1 final !! low2 = Some (low1, high1) ->
     low1 <> 0
     /\ is_Some (round_2 final !! low2)
     /\ (low1, high1) ∈ round_1_pairs (get_round_1 xor_values xor_values))
  /\ (forall st high1, solve_pair key_lows key_highs move_pps st (0, high1) = Ret st).
Proof.
  intros Hrun. apply get_round_2_ok in Hrun as [Hkeys Hok]. split.
  - intros low2 low1 high1 Hback.
    assert (Hdom : low2 ∈ dom (round_2 final)).
    { rewrite Hkeys. apply elem_of_dom. by eexists. }
    apply elem_of_dom in Hdom as [high2 Hhigh2].
    destruct (Hok low2 high2 Hhigh2)
      as (low1' & high1' & bl & bh & Hback' & Hpair & Hne & _).
    rewrite Hback in Hback'. injection Hback' as <- <-.
    split_and!; [done|by eexists|done].
  - intros st high1. unfold solve_pair. by rewrite decide_True.
Qed.

Lemma sentinel_never_chain_source_witness :
  get_round_2 {[ 0; 0x4000 ]} [0x4000] {[ 0x2580 ]} {[ 0 := 10; 0x4000 := 35 ]}
  = Ret (Maps {[ 0x4000 := 0x2580 ]} {[ 0x4000 := (0x4000, 0x4000) ]})
  /\ (0, 0) ∈ round_1_pairs (get_round_1 {[ 0; 0x4000 ]} {[ 0; 0x4000 ]})
  /\ forall low2 low1 high1,
      ({[ 0x4000 := (0x4000, 0x4000) ]} : gmap Z (Z * Z)) !! low2 = Some (low1, high1) ->
      low1 <> 0.
Proof.
  assert (Hrun : get_round_2 {[ 0; 0x4000 ]} [0x4000] {[ 0x2580 ]} {[ 0 := 10; 0x4000 := 35 ]}
                 = Ret (Maps {[ 0x4000 := 0x2580 ]} {[ 0x4000 := (0x4000, 0x4000) ]}))
    by (vm_compute; reflexivity).
  split_and!; [exact Hrun|vm_compute; by left|].
  intros low2 low1 high1 Hback.
  exact (proj1 (proj1 (sentinel_never_chain_source _ _ _ _ _ Hrun) low2 low1 high1 Hback)).
Defined.

(** ** C5 *)

(** C5. From any state [st] of the two dictionaries in which they have
    the same keys, as they have throughout a run: a [low2] that has an
    entry is skipped before any solving; any stretch of the inner loop,
    and any stretch of the outer loop, ends with every entry of [st]
    still there, unchanged, in both dictionaries, which again have the
    same keys.  In a run of [get_round_2] the state after any prefix of
    the round-1 pairs is such a state, and the result returned keeps all
    its entries.  The loop over the solver results obeys the same rule:
    with an entry for [low2] it changes nothing; without one it records
    the first result that is in [key_highs], with the back-reference
    [(low1, high1)], and no result after that one is looked at; whatever
    a prefix of the results has recorded is still there, unchanged, once
    all of them have been walked; and the loop keeps every entry of
    [st]. *)
Theorem chain_map_first_wins (key_lows : list Z) (key_highs : gset Z)
    (move_pps : gmap Z Z) (st : maps) :
  same_keys st ->
  (forall low1 high1 checksum pps_low pps_high low2,
     low2 ∈ dom (round_2 st) ->
     solve_low2 key_highs low1 high1 checksum pps_low pps_high st low2 = Ret st)
  /\ (forall low1 high1 checksum pps_low pps_high lows st',
        for_each (solve_low2 key_highs low1 high1 checksum pps_low pps_high) lows st = Ret st' ->
        extends st st' /\ same_keys st')
  /\ (forall pairs st',
        for_each (solve_pair key_lows key_highs move_pps) pairs st = Ret st' ->
        extends st st' /\ same_keys st')
  /\ (forall xor_values pairs1 pairs2 mid final,
        round_1_pairs (get_round_1 xor_values xor_values) = pairs1 ++ pairs2 ->
        for_each (solve_pair key_lows key_highs move_pps) pairs1 (Maps ∅ ∅) = Ret mid ->
        get_round_2 xor_values key_lows key_highs move_pps = Ret final ->
        same_keys mid /\ extends mid final /\ same_keys final)
  /\ (forall low1 high1 low2 solutions,
        low2 ∈ dom (round_2 st) ->
        record_solution key_highs low1 high1 low2 solutions st = st)
  /\ (forall low1 high1 low2 skipped s rest,
        (forall x, x ∈ skipped -> x ∉ key_highs) ->
        s ∈ key_highs ->
        low2 ∉ dom (round_2 st) ->
        record_solution key_highs low1 high1 low2 (skipped ++ s :: rest) st
        = Maps (<[low2 := s]> (round_2 st))
               (<[low2 := (low1, high1)]> (round_2_to_round_1 st)))
  /\ (forall low1 high1 low2 sols1 sols2,
        extends (record_solution key_highs low1 high1 low2 sols1 st)
                (record_solution key_highs low1 high1 low2 (sols1 ++ sols2) st))
  /\ (forall low1 high1 low2 solutions,
        extends st (record_solution key_highs low1 high1 low2 solutions st)
        /\ same_keys (record_solution key_highs low1 high1 low2 solutions st)).
Proof.
  intros Hkeys. split_and!.
  - intros. by apply solve_low2_skip.
  - intros until st'. by apply solve_low2_loop_extends.
  - intros pairs st'. by apply solve_pairs_extends.
  - intros xor_values pairs1 pairs2 mid final Hsplit Hmid Hrun.
    unfold get_round_2 in Hrun. rewrite Hsplit, for_each_app, Hmid in Hrun.
    simpl in Hrun.
    apply solve_pairs_extends in Hmid as [_ Hkm]; [|apply empty_same_keys].
    apply solve_pairs_extends in Hrun as [He Hkf]; done.
  - intros. by apply record_solution_present.
  - intros. by apply record_solution_first.
  - intros. by apply record_solution_prefix.
  - intros. by apply record_solution_extends.
Qed.

Lemma chain_map_first_wins_witness :
  same_keys (Maps {[ 0x4000 := 0x2580 ]} {[ 0x4000 := (0x4000, 0x4000) ]})
  /\ solve_low2 {[ 0x2580; 0xA580 ]} 0x8000 0x8000 0 0 0
                (Maps {[ 0x4000 := 0x2580 ]} {[ 0x4000 := (0x4000, 0x4000) ]}) 0x4000
     = Ret (Maps {[ 0x4000 := 0x2580 ]} {[ 0x4000 := (0x4000, 0x4000) ]})
  /\ record_solution {[ 0x2580; 0xA580 ]} 0x8000 0x8000 0x4000 [0xA580; 0x2580]
                     (Maps {[ 0x4000 := 0x2580 ]} {[ 0x4000 := (0x4000, 0x4000) ]})
     = Maps {[ 0x4000 := 0x2580 ]} {[ 0x4000 := (0x4000, 0x4000) ]}
  /\ record_solution {[ 0x2580; 0xA580 ]} 0x8000 0x8000 0x8000 ([1] ++ 0x2580 :: [0xA580])
                     (Maps {[ 0x4000 := 0x2580 ]} {[ 0x4000 := (0x4000, 0x4000) ]})
     = Maps (<[ 0x8000 := 0x2580 ]>
               (round_2 (Maps {[ 0x4000 := 0x2580 ]} {[ 0x4000 := (0x4000, 0x4000) ]})))
            (<[ 0x8000 := (0x8000, 0x8000) ]>
               (round_2_to_round_1
                  (Maps {[ 0x4000 := 0x2580 ]} {[ 0x4000 := (0x4000, 0x4000) ]}))).
Proof.
  assert (Hkeys : same_keys (Maps {[ 0x4000 := 0x2580 ]} {[ 0x4000 := (0x4000, 0x4000) ]}))
    by (vm_compute; reflexivity).
  destruct (chain_map_first_wins [0x4000] {[ 0x2580; 0xA580 ]} {[ 0x4000 := 35 ]} _ Hkeys)
    as (Hskip & _ & _ & _ & Hguard & Hfirst & _).
  split_and!.
  - exact Hkeys.
  - apply Hskip. vm_compute. reflexivity.
  - apply Hguard. vm_compute. reflexivity.
  - apply Hfirst.
    + intros x ->%list_elem_of_singleton. vm_compute. intros H. discriminate H.
    + vm_compute. reflexivity.
    + vm_compute. intros H. discriminate H.
Defined.

(** * Further properties of the modelled code *)

(** ** [calc_move_pp] and the packed PP words *)

Lemma pack_add (hi lo : Z) :
  0 <= hi < 256 -> 0 <= lo < 256 -> pack hi lo = 256 * hi + lo.
Proof.
  intros Hhi Hlo. unfold pack. rewrite Z.shiftl_0_r, Z.shiftl_mul_pow2 by lia.
  change (2 ^ 8) with 256.
  assert (Hland : Z.land (hi * 256) lo = 0).
  { apply Z.bits_inj'. intros n Hn. rewrite Z.land_spec, Z.bits_0.
    destruct (decide (n < 8)).
    - change 256 with (2 ^ 8). rewrite Z.mul_pow2_bits_low by lia. done.
    - rewrite (Z.bits_above_log2 lo n), andb_false_r; [done|lia|].
      destruct (decide (lo = 0)) as [->|]; [simpl; lia|].
      apply Z.log2_lt_pow2; [lia|].
      apply Z.lt_le_trans with (2 ^ 8); [lia|]. apply Z.pow_le_mono_r; lia. }
  rewrite <- Z.lxor_lor, <- Z.add_nocarry_lxor by done. lia.
Qed.

Lemma pp_ups_range (low1 i : Z) : 0 <= pp_ups low1 i <= 3.
Proof.
  unfold pp_ups. change 3 with (Z.ones 2). rewrite Z.land_ones by lia.
  pose proof (Z.mod_pos_bound (Z.shiftr low1 (2 * i)) (2 ^ 2) ltac:(lia)).
  change (2 ^ 2) with 4 in *. change (Z.ones 2) with 3. lia.
Qed.

(** X1. [calc_move_pp] always returns a byte, whatever the base PP and
    the PP-up count, and the two packed PP words of [get_round_2] are
    16-bit: each is [256 * pps[odd] + pps[even]]. *)
Theorem packed_pp_words_are_words (low1 base_low base_high base_pp ups : Z) :
  0 <= calc_move_pp base_pp ups < 256
  /\ packed_low low1 base_low base_high
     = 256 * calc_move_pp base_high (pp_ups low1 1)
       + calc_move_pp base_low (pp_ups low1 0)
  /\ packed_high low1 base_low base_high
     = 256 * calc_move_pp base_high (pp_ups low1 3)
       + calc_move_pp base_low (pp_ups low1 2)
  /\ 0 <= packed_low low1 base_low base_high < 2 ^ 16
  /\ 0 <= packed_high low1 base_low base_high < 2 ^ 16.
Proof.
  assert (Hb : forall b u, 0 <= calc_move_pp b u < 256)
    by (intros; apply Z.mod_pos_bound; lia).
  unfold packed_low, packed_high. rewrite !pack_add by apply Hb.
  pose proof (Hb base_high (pp_ups low1 1)). pose proof (Hb base_low (pp_ups low1 0)).
  pose proof (Hb base_high (pp_ups low1 3)). pose proof (Hb base_low (pp_ups low1 2)).
  change (2 ^ 16) with 65536.
  split; [apply Hb|]. split; [done|]. split; [done|]. lia.
Qed.

(** X2. For a base PP below 160 and at most 3 PP-ups nothing wraps:
    [calc_move_pp] is the base plus a fifth of it (rounded down) per
    PP-up, and never less than the base. *)
Theorem calc_move_pp_no_wrap (base_pp ups : Z) :
  0 <= base_pp < 160 -> 0 <= ups <= 3 ->
  calc_move_pp base_pp ups = base_pp + (base_pp / 5) * ups
  /\ base_pp <= calc_move_pp base_pp ups.
Proof.
  intros Hb Hu. unfold calc_move_pp.
  assert (0 <= base_pp / 5 < 32).
  { split; [apply Z.div_pos; lia|]. apply Z.div_lt_upper_bound; lia. }
  rewrite Z.mod_small by nia. nia.
Qed.

Lemma calc_move_pp_no_wrap_witness :
  calc_move_pp 35 3 = 35 + (35 / 5) * 3 /\ 35 <= calc_move_pp 35 3.
Proof. apply calc_move_pp_no_wrap; lia. Defined.

(** ** The pairs of [get_round_1] *)

(** X3. [get_round_1] pairs [low] with [high] exactly when [low] is in
    the low set, [high] is in the high set and [low + high] is one of
    the eight totals 0, 0x4000, ..., 7 * 0x4000. *)
Theorem round_1_pairs_exactly (key_lows key_highs : gset Z) (low high : Z) :
  (low, high) ∈ round_1_pairs (get_round_1 key_lows key_highs)
  <-> low ∈ key_lows /\ high ∈ key_highs
      /\ exists i, 0 <= i < 8 /\ low + high = 0x4000 * i.
Proof.
  rewrite elem_of_round_1_pairs, elem_of_highs_of. change 0x4000 with 16384.
  split.
  - intros (Hl & Hh & i & Hi & ->). split_and!; [done..|]. exists i. lia.
  - intros (Hl & Hh & i & Hi & Hsum). split_and!; [done..|]. exists i. lia.
Qed.

(** X5. Called with the same set on both sides, as [get_round_2] calls
    it, [get_round_1] yields a symmetric relation: [(low, high)] is a
    pair if and only if [(high, low)] is. *)
Theorem round_1_pairs_symmetric (xor_values : gset Z) (low high : Z) :
  (low, high) ∈ round_1_pairs (get_round_1 xor_values xor_values)
  <-> (high, low) ∈ round_1_pairs (get_round_1 xor_values xor_values).
Proof.
  rewrite !elem_of_round_1_pairs, !elem_of_highs_of.
  split; intros (Hl & Hh & i & Hi & ->); (split_and!; [done..|]); exists i; lia.
Qed.

Lemma entries_keys (key_highs : gset Z) (lows : list Z) :
  (lows ≫= round_1_entry key_highs).*1
  = filter (fun low => highs_of key_highs low <> []) lows.
Proof.
  induction lows as [|low lows IH]; [done|].
  rewrite bind_cons, fmap_app, IH, filter_cons. unfold round_1_entry.
  destruct (decide (highs_of key_highs low <> [])) as [Hne|Heq].
  - destruct (highs_of key_highs low); done.
  - apply dec_stable in Heq. by rewrite Heq.
Qed.

Lemma sorted_strictly_ascending (s : gset Z) : StronglySorted Z.lt (sorted s).
Proof.
  pose proof (sorted_ascending s) as Hle. pose proof (NoDup_sorted s) as Hnd.
  induction Hle as [|x l Hl IH Hx]; [constructor|].
  apply NoDup_cons in Hnd as [Hnotin Hnd]. constructor; [by apply IH|].
  rewrite Forall_forall in *. intros y Hy.
  assert (x <> y) by (intros ->; done). specialize (Hx y Hy). lia.
Qed.

(** X4. The dictionary [get_round_1] returns lists its keys in strictly
    ascending order; every key is in the low set and its entry is not
    empty, so a low with no accepted high has no key. *)
Theorem round_1_keys_ascending (key_lows key_highs : gset Z) :
  StronglySorted Z.lt (get_round_1 key_lows key_highs).*1
  /\ (forall low highs, (low, highs) ∈ get_round_1 key_lows key_highs ->
        low ∈ key_lows /\ highs <> []
        /\ od_get low (get_round_1 key_lows key_highs) = Some highs)
  /\ (forall low, od_get low (get_round_1 key_lows key_highs) = None
        <-> (low ∉ key_lows \/ highs_of key_highs low = [])).
Proof.
  split_and!.
  - rewrite get_round_1_entries, entries_keys.
    apply StronglySorted_filter, sorted_strictly_ascending.
  - intros low highs Hin. rewrite od_get_round_1.
    rewrite get_round_1_entries in Hin.
    apply list_elem_of_bind in Hin as (l & Hent & Hl). apply elem_of_sorted in Hl.
    unfold round_1_entry in Hent.
    destruct (highs_of key_highs l) eqn:E; [by apply elem_of_nil in Hent|].
    apply list_elem_of_singleton in Hent as [= -> ->].
    split_and!; [done|done|]. rewrite E. by rewrite decide_True.
  - intros low. rewrite od_get_round_1. case_decide as H.
    + split; [done|]. intros [?|?]; tauto.
    + split; [|done]. intros _.
      destruct (decide (low ∈ key_lows)); [|by left]. right.
      destruct (highs_of key_highs low) eqn:E; [done|]. exfalso. by apply H.
Qed.

(** ** The bit loop without solutions *)

Lemma equation_parity (m y : Z) : equation m y mod 2 = m mod 2.
Proof.
  change 2 with (2 ^ 1). rewrite equation_mod by lia.
  pose proof (Z.mod_pos_bound y (2 ^ 1) ltac:(lia)) as Hy.
  change (2 ^ 1) with 2 in *.
  assert (Hc : y mod 2 = 0 \/ y mod 2 = 1) by lia.
  destruct Hc as [-> | ->]; unfold equation.
  - by rewrite Z.lxor_0_r.
  - change 1 with (2 ^ 0) at 2. rewrite <- Z.add_mod_idemp_r by lia.
    change 2 with (2 ^ (0 + 1)) at 2. rewrite lxor_one_hot_mod by lia.
    change (2 ^ (0 + 1)) with 2. change (2 ^ 0) with 1.
    rewrite Z.add_mod_idemp_r by lia.
    replace (11 * 1 + (m + 1)) with (m + 6 * 2) by lia. apply Z.mod_add. lia.
Qed.

(** X9. The lowest bit of [11*y + (m XOR y)] is that of the mask [m]
    whatever [y] is; when the target [a] and the mask differ in their
    lowest bit the bit loop returns the empty list. *)
Theorem parity_mismatch_no_solution (m a : Z) :
  a mod 2 <> m mod 2 -> solve_bits m a = Ret [].
Proof.
  intros Hpar. rewrite solve_bits_carried. f_equal.
  destruct (carried m a 16) as [|y l] eqn:E; [done|]. exfalso.
  assert (Hy : y ∈ carried m a 16) by (rewrite E; left).
  apply (carried_spec m a 16) in Hy as [_ He].
  apply Hpar. rewrite <- (equation_parity m y).
  assert (Hdiv : (2 | 2 ^ Z.of_nat 16)) by (exists (2 ^ 15); done).
  rewrite <- (Z.mod_mod_divide a _ _ Hdiv), <- He.
  by rewrite (Z.mod_mod_divide _ _ _ Hdiv).
Qed.

Lemma parity_mismatch_no_solution_witness : solve_bits 0x0005 0x0010 = Ret [].
Proof. apply parity_mismatch_no_solution. vm_compute. discriminate. Defined.

(** ** Errors and coverage of [get_round_2] *)

Section round_2_run.
Variables (key_lows : list Z) (key_highs : gset Z) (move_pps : gmap Z Z).

(** What one pass of the outer loop comes to. *)
Lemma solve_pair_cases (st : maps) (low1 high1 : Z) :
  (low1 = 0 /\ solve_pair key_lows key_highs move_pps st (low1, high1) = Ret st)
  \/ (low1 <> 0 /\ move_pps !! low1 = None
      /\ solve_pair key_lows key_highs move_pps st (low1, high1) = Raise (KeyError low1))
  \/ (low1 <> 0 /\ is_Some (move_pps !! low1) /\ move_pps !! high1 = None
      /\ solve_pair key_lows key_highs move_pps st (low1, high1) = Raise (KeyError high1))
  \/ (low1 <> 0 /\ exists base_low base_high st',
        move_pps !! low1 = Some base_low /\ move_pps !! high1 = Some base_high
        /\ solve_pair key_lows key_highs move_pps st (low1, high1) = Ret st'
        /\ for_each (solve_low2 key_highs low1 high1
                       ((low1 * 11) + (high1 * 11)
                        + packed_low low1 base_low base_high
                        + packed_high low1 base_low base_high)
                       (Z.lxor (packed_low low1 base_low base_high) low1)
                       (Z.lxor (packed_high low1 base_low base_high) high1))
                    key_lows st = Ret st').
Proof.
  unfold solve_pair, getitem. case_decide as Hlow1; [by left|]. right.
  destruct (move_pps !! low1) as [base_low|] eqn:Hbl; simpl; [|by left].
  right. destruct (move_pps !! high1) as [base_high|] eqn:Hbh; simpl;
    [|left; split_and!; [done|by eexists|done..]].
  right. split; [done|].
  match goal with |- context [for_each ?b ?l ?s] =>
    destruct (for_each b l s) as [st'| |] eqn:Hrun end.
  - exists base_low, base_high, st'. done.
  - exfalso. revert Hrun. generalize key_lows st. intros lows.
    induction lows as [|low2 lows IH]; intros s; cbn [for_each]; [done|].
    rewrite solve_low2_unfold. case_decide; cbn [bind]; apply IH.
  - exfalso. revert Hrun. generalize key_lows st. intros lows.
    induction lows as [|low2 lows IH]; intros s; cbn [for_each]; [done|].
    rewrite solve_low2_unfold. case_decide; cbn [bind]; apply IH.
Qed.

Lemma solve_pairs_raise (l : list (Z * Z)) : forall st,
  (forall e, for_each (solve_pair key_lows key_highs move_pps) l st = Raise e ->
     exists pair k, pair ∈ l /\ missing_pp move_pps pair /\ e = KeyError k
                /\ move_pps !! k = None /\ (k = pair.1 \/ k = pair.2))
  /\ ((exists pair, pair ∈ l /\ missing_pp move_pps pair) ->
      exists e, for_each (solve_pair key_lows key_highs move_pps) l st = Raise e)
  /\ for_each (solve_pair key_lows key_highs move_pps) l st <> Fuel.
Proof.
  induction l as [|[low1 high1] l IH]; intros st.
  - split_and!; [done| |done]. intros (pair & Hin & _). by apply elem_of_nil in Hin.
  - cbn [for_each].
    destruct (solve_pair_cases st low1 high1)
      as [[H0 ->]|[(Hne & Hl & ->)|[(Hne & Hl & Hh & ->)|(Hne & bl & bh & st' & Hl & Hh & -> & _)]]];
      cbn [bind].
    + destruct (IH st) as (IH1 & IH2 & IH3). split_and!; [| |done].
      * intros e He. destruct (IH1 e He) as (pair & k & Hin & Hrest).
        exists pair, k. split; [by right|done].
      * intros (pair & Hin & Hmiss). apply IH2. exists pair. split; [|done].
        apply elem_of_cons in Hin as [->|Hin]; [|done].
        destruct Hmiss as [Hm _]. done.
    + split_and!; [| |done].
      * intros e [= <-]. exists (low1, high1), low1.
        split_and!; [by left|split; [done|by left]|done|done|by left].
      * intros _. by eexists.
    + split_and!; [| |done].
      * intros e [= <-]. exists (low1, high1), high1.
        split_and!; [by left|split; [done|by right]|done|done|by right].
      * intros _. by eexists.
    + destruct (IH st') as (IH1 & IH2 & IH3). split_and!; [| |done].
      * intros e He. destruct (IH1 e He) as (pair & k & Hin & Hrest).
        exists pair, k. split; [by right|done].
      * intros (pair & Hin & Hmiss). apply IH2. exists pair. split; [|done].
        apply elem_of_cons in Hin as [->|Hin]; [|done].
        destruct Hmiss as [_ [Hm|Hm]]; simpl in Hm; congruence.
Qed.
End round_2_run.

(** X6. [get_round_2] raises exactly when some round-1 pair with a low
    other than 0 lacks a base PP, whatever [key_lows] and [key_highs]
    are.  What it raises is the [KeyError] of an xor value that
    [move_pps] does not hold. *)
Theorem get_round_2_raises_iff (xor_values : gset Z) (key_lows : list Z)
    (key_highs : gset Z) (move_pps : gmap Z Z) :
  ((exists e, get_round_2 xor_values key_lows key_highs move_pps = Raise e)
   <-> exists pair, pair ∈ round_1_pairs (get_round_1 xor_values xor_values)
                /\ missing_pp move_pps pair)
  /\ (forall e, get_round_2 xor_values key_lows key_highs move_pps = Raise e ->
        exists k, e = KeyError k /\ k ∈ xor_values /\ move_pps !! k = None)
  /\ get_round_2 xor_values key_lows key_highs move_pps <> Fuel.
Proof.
  unfold get_round_2.
  destruct (solve_pairs_raise key_lows key_highs move_pps
              (round_1_pairs (get_round_1 xor_values xor_values)) (Maps ∅ ∅))
    as (H1 & H2 & H3).
  split_and!; [split; [|done]| |done].
  - intros [e He]. destruct (H1 e He) as (pair & k & Hin & Hmiss & _). by exists pair.
  - intros e He. destruct (H1 e He) as ([low high] & k & Hin & _ & -> & Hk & Hor).
    exists k. split_and!; [done| |done].
    apply elem_of_round_1_pairs in Hin as [Hl Hh].
    apply elem_of_highs_of in Hh as [Hh _]. simpl in Hor. by destruct Hor as [->| ->].
Qed.

Section round_2_coverage.
Variables (key_lows : list Z) (key_highs : gset Z) (move_pps : gmap Z Z).

Lemma record_solution_dom (low1 high1 low2 k : Z) (solutions : list Z) (st : maps) :
  k ∈ dom (round_2 (record_solution key_highs low1 high1 low2 solutions st)) ->
  k ∈ dom (round_2 st) \/ k = low2.
Proof.
  induction solutions as [|s rest IH]; simpl; [by left|].
  case_decide; [done|]. case_decide; [|by left].
  simpl. rewrite dom_insert_L, elem_of_union, elem_of_singleton. tauto.
Qed.

Lemma record_solution_keeps (low1 high1 low2 k : Z) (solutions : list Z) (st : maps) :
  k ∈ dom (round_2 st) ->
  k ∈ dom (round_2 (record_solution key_highs low1 high1 low2 solutions st)).
Proof.
  induction solutions as [|s rest IH]; simpl; [done|].
  case_decide; [done|]. case_decide; [|done].
  simpl. rewrite dom_insert_L, elem_of_union. by right.
Qed.

Lemma record_solution_hits (low1 high1 low2 s : Z) (solutions : list Z) (st : maps) :
  s ∈ solutions -> s ∈ key_highs ->
  low2 ∈ dom (round_2 (record_solution key_highs low1 high1 low2 solutions st)).
Proof.
  intros Hs Hin. induction solutions as [|s' rest IH]; simpl;
    [by apply elem_of_nil in Hs|].
  case_decide as Hs'.
  - apply IH. apply elem_of_cons in Hs as [->|Hs]; done.
  - case_decide as Hfresh; [|done].
    simpl. rewrite dom_insert_L, elem_of_union, elem_of_singleton. by left.
Qed.

Lemma mod_sub_cancel (x y c n : Z) :
  (y + x) mod n = c mod n -> x mod n = (c - y) mod n.
Proof.
  intros H. replace x with ((y + x) - y) at 1 by lia.
  by rewrite Zminus_mod, H, <- Zminus_mod.
Qed.

Lemma for_each_reaches {S B : Type} (Q : S -> Prop) (body : S -> B -> res S)
    (x : B) (l : list B) :
  x ∈ l ->
  (forall st st', body st x = Ret st' -> Q st') ->
  (forall st y st', Q st -> body st y = Ret st' -> Q st') ->
  forall st st', for_each body l st = Ret st' -> Q st'.
Proof.
  intros Hx Hhit Hkeep. induction l as [|y l IH]; intros st st';
    [by apply elem_of_nil in Hx|].
  cbn [for_each]. destruct (body st y) as [st1| |] eqn:Hy; cbn [bind]; [|done..].
  apply elem_of_cons in Hx as [<-|Hx]; [|by apply IH].
  apply for_each_preserves; [|by apply (Hhit st)].
  intros s z s' _. apply Hkeep.
Qed.

Lemma solve_low2_keeps (low1 high1 checksum pps_low pps_high low2 k : Z) (st st' : maps) :
  k ∈ dom (round_2 st) ->
  solve_low2 key_highs low1 high1 checksum pps_low pps_high st low2 = Ret st' ->
  k ∈ dom (round_2 st').
Proof.
  intros Hk. rewrite solve_low2_unfold. case_decide; intros <-%Ret_inj; [done|].
  by apply record_solution_keeps.
Qed.

Lemma solve_pair_keeps (pair : Z * Z) (k : Z) (st st' : maps) :
  k ∈ dom (round_2 st) ->
  solve_pair key_lows key_highs move_pps st pair = Ret st' ->
  k ∈ dom (round_2 st').
Proof.
  destruct pair as [low1 high1]. intros Hk.
  destruct (solve_pair_cases key_lows key_highs move_pps st low1 high1)
    as [[_ ->]|[(_ & _ & ->)|[(_ & _ & _ & ->)|(_ & bl & bh & s & _ & _ & -> & Hrun)]]];
    [by intros <-%Ret_inj|done|done|].
  intros <-%Ret_inj. revert Hrun.
  apply (for_each_preserves (fun s => k ∈ dom (round_2 s))); [|done].
  intros s1 low2 s2 _. apply solve_low2_keeps.
Qed.

Lemma solve_low2_requested (low1 high1 checksum pps_low pps_high low2 : Z) (st st' : maps) :
  low2 ∈ key_lows ->
  (forall k, k ∈ dom (round_2 st) -> k ∈ key_lows) ->
  solve_low2 key_highs low1 high1 checksum pps_low pps_high st low2 = Ret st' ->
  forall k, k ∈ dom (round_2 st') -> k ∈ key_lows.
Proof.
  intros Hlow2 Hst. rewrite solve_low2_unfold. case_decide; intros <-%Ret_inj; [done|].
  intros k [Hk| ->]%record_solution_dom; auto.
Qed.
End round_2_coverage.

Lemma get_round_2_dom_requested (xor_values : gset Z) (key_lows : list Z)
    (key_highs : gset Z) (move_pps : gmap Z Z) (final : maps) :
  get_round_2 xor_values key_lows key_highs move_pps = Ret final ->
  forall low2,
    (low2 ∈ dom (round_2 final) -> low2 ∈ key_lows)
    /\ (low2 ∈ dom (round_2_to_round_1 final) -> low2 ∈ key_lows).
Proof.
  intros Hrun. pose proof (get_round_2_ok _ _ _ _ _ Hrun) as [Hkeys _].
  assert (H : forall k, k ∈ dom (round_2 final) -> k ∈ key_lows).
  { revert Hrun. unfold get_round_2.
    apply (for_each_preserves (fun s => forall k, k ∈ dom (round_2 s) -> k ∈ key_lows)).
    - intros st [low1 high1] st' _ Hst.
      destruct (solve_pair_cases key_lows key_highs move_pps st low1 high1)
        as [[_ ->]|[(_ & _ & ->)|[(_ & _ & _ & ->)|(_ & bl & bh & s & _ & _ & -> & Hin)]]];
        [by intros <-%Ret_inj|done|done|].
      intros <-%Ret_inj. revert Hin.
      apply (for_each_preserves
               (fun s => forall k, k ∈ dom (round_2 s) -> k ∈ key_lows)); [|done].
      intros s1 low2 s2 Hlow2 Hs1. by apply solve_low2_requested.
    - intros k. simpl. rewrite dom_empty_L. set_solver. }
  intros low2. split; [apply H|]. rewrite <- Hkeys. apply H.
Qed.


(** X7. [get_round_2] records a [high2] for values of [key_lows] only:
    every key of the [round_2] dictionary it returns is in [key_lows],
    and so is every key of [round_2_to_round_1]. *)
Theorem round_2_keys_requested (xor_values : gset Z) (key_lows : list Z)
    (key_highs : gset Z) (move_pps : gmap Z Z) (final : maps) :
  get_round_2 xor_values key_lows key_highs move_pps = Ret final ->
  forall low2,
    (low2 ∈ dom (round_2 final) -> low2 ∈ key_lows)
    /\ (low2 ∈ dom (round_2_to_round_1 final) -> low2 ∈ key_lows).
Proof. apply get_round_2_dom_requested. Qed.

Lemma round_2_keys_requested_witness :
  get_round_2 {[ 0x4000 ]} [0x4000] {[ 0x2580 ]} {[ 0x4000 := 35 ]}
  = Ret (Maps {[ 0x4000 := 0x2580 ]} {[ 0x4000 := (0x4000, 0x4000) ]})
  /\ forall low2, low2 ∈ dom ({[ 0x4000 := 0x2580 ]} : gmap Z Z) -> low2 ∈ [0x4000].
Proof.
  assert (Hrun : get_round_2 {[ 0x4000 ]} [0x4000] {[ 0x2580 ]} {[ 0x4000 := 35 ]}
                 = Ret (Maps {[ 0x4000 := 0x2580 ]} {[ 0x4000 := (0x4000, 0x4000) ]}))
    by (vm_compute; reflexivity).
  split; [exact Hrun|].
  intros low2. exact (proj1 (round_2_keys_requested _ _ _ _ _ Hrun low2)).
Defined.

Lemma get_round_2_reaches (xor_values : gset Z) (key_lows : list Z)
    (key_highs : gset Z) (move_pps : gmap Z Z) (final : maps)
    (low1 high1 base_low base_high low2 high2 : Z) :
  get_round_2 xor_values key_lows key_highs move_pps = Ret final ->
  (low1, high1) ∈ round_1_pairs (get_round_1 xor_values xor_values) ->
  low1 <> 0 ->
  move_pps !! low1 = Some base_low ->
  move_pps !! high1 = Some base_high ->
  low2 ∈ key_lows ->
  high2 ∈ key_highs ->
  0 <= high2 < 2 ^ 16 ->
  chain_equation (packed_low low1 base_low base_high)
                 (packed_high low1 base_low base_high) low1 high1 low2 high2 ->
  is_Some (round_2 final !! low2).
Proof.
  intros Hrun Hpair Hlow1 Hbl Hbh Hlow2 Hhigh2 Hword Heq.
  apply elem_of_dom. revert Hrun. unfold get_round_2.
  apply (for_each_reaches (fun s => low2 ∈ dom (round_2 s)) _ (low1, high1)); [done| |].
  - intros st st'.
    destruct (solve_pair_cases key_lows key_highs move_pps st low1 high1)
      as [[? _]|[(_ & ? & _)|[(_ & _ & ? & _)|(_ & bl & bh & s & Hbl' & Hbh' & -> & Hin)]]];
      [congruence..|].
    intros <-%Ret_inj. rewrite Hbl in Hbl'. rewrite Hbh in Hbh'.
    injection Hbl' as <-. injection Hbh' as <-. revert Hin.
    apply (for_each_reaches (fun s => low2 ∈ dom (round_2 s)) _ low2); [done| |].
    + intros s1 s2. rewrite solve_low2_unfold. case_decide; intros <-%Ret_inj; [done|].
      apply (record_solution_hits _ _ _ _ high2); [|done].
      apply (carried_spec _ _ 16). split; [done|].
      unfold chain_equation, equation in *. change (Z.of_nat 16) with 16.
      match goal with |- _ = (?c - ?a - ?b) mod _ =>
        replace (c - a - b)
          with (11 * low1 + 11 * high1 + packed_low low1 base_low base_high
                + packed_high low1 base_low base_high - (a + b)) by lia end.
      apply mod_sub_cancel. rewrite <- Heq. f_equal. lia.
    + intros s1 y s2. apply solve_low2_keeps.
  - intros st pair st'. apply solve_pair_keeps.
Qed.


(** X8. [get_round_2] resolves every [low2] of [key_lows] that some chain
    can reach: when a round-1 pair [(low1, high1)] with [low1] other than
    0 and a Word [high2] of [key_highs] solve the two-step equation for
    [low2], the returned [round_2] has an entry for [low2] (from this
    pair or from an earlier one). *)
Theorem round_2_resolves_reachable (xor_values : gset Z) (key_lows : list Z)
    (key_highs : gset Z) (move_pps : gmap Z Z) (final : maps)
    (low1 high1 base_low base_high low2 high2 : Z) :
  get_round_2 xor_values key_lows key_highs move_pps = Ret final ->
  (low1, high1) ∈ round_1_pairs (get_round_1 xor_values xor_values) ->
  low1 <> 0 ->
  move_pps !! low1 = Some base_low ->
  move_pps !! high1 = Some base_high ->
  low2 ∈ key_lows ->
  high2 ∈ key_highs ->
  0 <= high2 < 2 ^ 16 ->
  chain_equation (packed_low low1 base_low base_high)
                 (packed_high low1 base_low base_high) low1 high1 low2 high2 ->
  is_Some (round_2 final !! low2).
Proof. apply get_round_2_reaches. Qed.

Lemma round_2_resolves_reachable_witness :
  is_Some (round_2 (Maps {[ 0x4000 := 0x2580 ]} {[ 0x4000 := (0x4000, 0x4000) ]})
           !! 0x4000).
Proof.
  apply (round_2_resolves_reachable {[ 0x4000 ]} [0x4000] {[ 0x2580 ]} {[ 0x4000 := 35 ]}
           (Maps {[ 0x4000 := 0x2580 ]} {[ 0x4000 := (0x4000, 0x4000) ]})
           0x4000 0x4000 35 35 0x4000 0x2580).
  - vm_compute. reflexivity.
  - vm_compute. by left.
  - lia.
  - reflexivity.
  - reflexivity.
  - by left.
  - set_solver.
  - lia.
  - vm_compute. reflexivity.
Defined.

(** ** The least high of [build_round_1_map] *)

(** X10. For each xor value [build_round_1_map] stores the least
    admissible high: whenever a Word [high] of the set with bit 14 clear
    satisfies [(12*low + 12*high) mod 0x10000 = 0], the map has an entry
    for [low], and the stored value is such a high, not negative and not
    above [high]. *)
Theorem build_round_1_map_least (xor_values : gset Z) (low high : Z) :
  low ∈ xor_values ->
  0 <= high < 2 ^ 16 ->
  (12 * low + 12 * high) mod 0x10000 = 0 ->
  high ∈ xor_values ->
  Z.land high 0x4000 = 0 ->
  exists v, od_get low (build_round_1_map xor_values) = Some v
       /\ 0 <= v <= high
       /\ (12 * low + 12 * v) mod 0x10000 = 0
       /\ v ∈ xor_values /\ Z.land v 0x4000 = 0.
Proof.
  intros Hlow Hh Hmod Hin Hbit.
  destruct (first_accepted_least xor_values low high Hh) as (v & Hv & Hle & Hok);
    [done|].
  exists v. rewrite od_get_build, decide_True by done. done.
Qed.

Lemma build_round_1_map_least_witness :
  exists v, od_get 0 (build_round_1_map {[ 0; 0x8000 ]}) = Some v /\ 0 <= v <= 0x8000.
Proof.
  destruct (build_round_1_map_least {[ 0; 0x8000 ]} 0 0x8000) as (v & Hv & Hle & _).
  - set_solver.
  - lia.
  - reflexivity.
  - set_solver.
  - reflexivity.
  - exists v. split; assumption.
Defined.

(** X11. [build_round_1_map] has a key exactly for the xor values that
    have an accepted total, and no other: a value outside the set, or one
    for which no total below 0xC0000 is accepted, has no entry. *)
Theorem build_round_1_map_keys (xor_values : gset Z) (low : Z) :
  (is_Some (od_get low (build_round_1_map xor_values))
   <-> low ∈ xor_values
       /\ exists i, i ∈ range (Z.land (0x10000 - (low * 12)) 0xFFFF) 0xC0000 0x10000
               /\ accepts xor_values i = true)
  /\ (forall v, od_get low (build_round_1_map xor_values) = Some v ->
        0 <= v < 2 ^ 16).
Proof.
  rewrite od_get_build. unfold first_accepted. split.
  - case_decide as Hlow.
    + rewrite fmap_is_Some, find_some_iff. tauto.
    + split; [by intros [? ?]|tauto].
  - intros v. case_decide; [|done].
    destruct (find _ _) as [i|] eqn:Hfind; [|done]. intros [= <-].
    apply find_some in Hfind as [Hi _]. apply list_elem_of_In in Hi.
    apply elem_of_range in Hi as (j & Hj & Hij & Hlt); [|lia].
    change 0xFFFF with (Z.ones 16) in Hij. rewrite Z.land_ones in Hij by lia.
    pose proof (Z.mod_pos_bound (0x10000 - low * 12) (2 ^ 16) ltac:(lia)).
    split; [apply Z.div_pos; lia|]. apply Z.div_lt_upper_bound; lia.
Qed.

(** ** The chains of [calc_messages] *)

Lemma elem_of_fold_append {A B : Type} (f : list A -> B -> list A)
    (R : B -> A -> Prop) (l : list B) :
  (forall acc x a, a ∈ f acc x <-> a ∈ acc \/ R x a) ->
  forall acc a, a ∈ fold_left f l acc <-> a ∈ acc \/ exists x, x ∈ l /\ R x a.
Proof.
  intros Hf. induction l as [|x l IH]; intros acc a; simpl.
  - split; [by left|]. intros [?|(x & Hx & _)]; [done|by apply elem_of_nil in Hx].
  - rewrite IH, Hf. split.
    + intros [[?|?]|(y & Hy & ?)]; [by left|right; exists x|right; exists y];
        (split; [|done]); first [by left|by right].
    + intros [?|(y & [->|Hy]%elem_of_cons & ?)]; [by left; left|by left; right|].
      right. by exists y.
Qed.

Lemma or_iff_both (A B C D : Prop) : (A <-> B) -> (C <-> D) -> (A \/ C <-> B \/ D).
Proof. tauto. Qed.

(** The second message [(target, candidate)] completes the chain started
    by a pair with this [key_high]: the test of lines 46-53. *)
Lemma elem_of_try_second (target_species key_low key_high new_key_high : Z)
    (messages : list (list (Z * Z))) (msg : list (Z * Z)) :
  msg ∈ try_second target_species key_low key_high messages new_key_high
  <-> msg ∈ messages
      \/ (second_ok target_species key_high new_key_high
          /\ msg = [(key_low, key_high); (target_species, new_key_high)]).
Proof.
  unfold try_second, second_ok. case_decide as Hegg; [|case_decide as Hsum].
  - split; [by left|]. intros [?|[[? _] _]]; done.
  - rewrite elem_of_app, list_elem_of_singleton. simpl. split.
    + intros [?| ->]; [by left|by right].
    + intros [?|[_ ->]]; [by left|by right].
  - split; [by left|]. intros [?|[[_ ?] _]]; done.
Qed.

Lemma elem_of_calc_messages (target_species : Z) (xor_values : gset Z)
    (round_1_map : list (Z * Z)) (messages : list (list (Z * Z))) :
  calc_messages target_species xor_values round_1_map = Ret messages ->
  forall msg,
    msg ∈ messages
    <-> (exists key_high, od_get target_species round_1_map = Some key_high
                     /\ msg = [(target_species, key_high)])
        \/ (exists key_low key_high c,
              (key_low, key_high) ∈ round_1_map
              /\ c ∈ xor_values
              /\ Z.land c 0x4000 <> 0x4000
              /\ Z.land ((target_species * 12) + (c * 11) + Z.lxor c key_high) MASK_16
                 = Z.shiftl 1 16 - key_high
              /\ msg = [(key_low, key_high); (target_species, c)]).
Proof.
  unfold calc_messages. case_decide; [done|]. intros <-%Ret_inj msg.
  rewrite (elem_of_fold_append _
             (fun (item : Z * Z) msg =>
                exists c, c ∈ xor_values /\ second_ok target_species item.2 c
                     /\ msg = [(item.1, item.2); (target_species, c)])).
  - apply or_iff_both; [|split].
    + destruct (od_get target_species round_1_map) as [h|]; simpl.
      * rewrite list_elem_of_singleton. split; [intros ->; by exists h|].
        by intros (h' & [= <-] & ->).
      * split; [by intros ?%elem_of_nil|]. by intros (h' & ? & _).
    + intros ([kl kh] & Hitem & c & Hc & [Hegg Hsum] & ->). by exists kl, kh, c.
    + intros (kl & kh & c & Hitem & Hc & Hegg & Hsum & ->).
      exists (kl, kh). split; [done|]. by exists c.
  - intros acc [kl kh] a.
    rewrite (elem_of_fold_append _
               (fun c msg => second_ok target_species kh c
                             /\ msg = [(kl, kh); (target_species, c)])).
    + apply or_iff_compat_l. simpl. split.
      * intros (c & Hc%elem_of_elements & ?). by exists c.
      * intros (c & Hc & ?). exists c. by rewrite elem_of_elements.
    + intros acc' c a'. apply elem_of_try_second.
Qed.


(** X12. [calc_messages] returns exactly these chains: the length-1
    chain [(target, round_1_map[target])] when the target is a key of the
    map, and for every item [(key_low, key_high)] of the map and every
    xor value [c] without bit 14 whose masked checksum
    [(12*target + 11*c + (c XOR key_high)) & 0xFFFF] equals
    [0x10000 - key_high], the length-2 chain [(key_low, key_high)],
    [(target, c)]. *)
Theorem calc_messages_chains (target_species : Z) (xor_values : gset Z)
    (round_1_map : list (Z * Z)) (messages : list (list (Z * Z))) :
  calc_messages target_species xor_values round_1_map = Ret messages ->
  forall msg,
    msg ∈ messages
    <-> (exists key_high, od_get target_species round_1_map = Some key_high
                     /\ msg = [(target_species, key_high)])
        \/ (exists key_low key_high c,
              (key_low, key_high) ∈ round_1_map
              /\ c ∈ xor_values
              /\ Z.land c 0x4000 <> 0x4000
              /\ Z.land ((target_species * 12) + (c * 11) + Z.lxor c key_high) MASK_16
                 = Z.shiftl 1 16 - key_high
              /\ msg = [(key_low, key_high); (target_species, c)]).
Proof. apply elem_of_calc_messages. Qed.

Lemma calc_messages_chains_witness :
  calc_messages 0x8000 {[ 0; 0x8000 ]} (build_round_1_map {[ 0; 0x8000 ]})
  = Ret [[(0x8000, 0)]]
  /\ [(0x8000, 0)] ∈ [[(0x8000, 0)]].
Proof.
  assert (H : calc_messages 0x8000 {[ 0; 0x8000 ]} (build_round_1_map {[ 0; 0x8000 ]})
              = Ret [[(0x8000, 0)]]) by (by vm_compute).
  split; [exact H|].
  apply (calc_messages_chains _ _ _ _ H). left. exists 0. split; reflexivity.
Defined.

(** ** The two round-1 maps agree *)

Lemma highs_of_complete (key_highs : gset Z) (low high : Z) :
  0 <= low < 2 ^ 16 -> 0 <= high < 2 ^ 16 ->
  high ∈ key_highs -> (12 * low + 12 * high) mod 0x10000 = 0 ->
  high ∈ highs_of key_highs low.
Proof.
  intros Hl Hh Hmem Hmod. apply elem_of_highs_of. split; [done|].
  apply (Z.mod_divide _ 0x10000 ltac:(lia)) in Hmod as [q Hq].
  exists ((low + high) / 16384).
  pose proof (Z.div_mod (low + high) 16384 ltac:(lia)) as Hd.
  pose proof (Z.mod_pos_bound (low + high) 16384 ltac:(lia)) as Hr.
  assert ((low + high) mod 16384 = 0) by lia.
  assert (0 <= (low + high) / 16384 < 8); [|lia].
  split; [apply Z.div_pos; lia|apply Z.div_lt_upper_bound; lia].
Qed.

Lemma head_least (l : list Z) (v : Z) :
  StronglySorted Z.lt l -> v ∈ l -> (forall x, x ∈ l -> v <= x) -> head l = Some v.
Proof.
  intros Hl Hv Hmin. destruct Hl as [|x l Hl Hx]; [by apply elem_of_nil in Hv|].
  simpl. f_equal. apply elem_of_cons in Hv as [->|Hv]; [done|].
  rewrite Forall_forall in Hx. specialize (Hx v Hv).
  specialize (Hmin x ltac:(by left)). lia.
Qed.

(** X13. On a set of Words the two scripts agree on round 1: for every
    xor value, what [build_round_1_map] stores is the first high of the
    entry [get_round_1] builds in [main] of [PCHealSearcher.py], where the
    high set is the set without its bit-14 values; one has no entry
    exactly when the other has none. *)
Theorem round_1_maps_agree (xor_values : gset Z) (low : Z) :
  (forall x, x ∈ xor_values -> 0 <= x < 2 ^ 16) ->
  od_get low (build_round_1_map xor_values)
  = od_get low (get_round_1 xor_values (no_egg xor_values)) ≫= head.
Proof.
  intros Hwords. rewrite od_get_build, od_get_round_1.
  destruct (decide (low ∈ xor_values)) as [Hlow|Hlow];
    [|rewrite decide_False; [done|tauto]].
  assert (Hsound : forall v, first_accepted xor_values low = Some v ->
            v ∈ highs_of (no_egg xor_values) low
            /\ forall x, x ∈ highs_of (no_egg xor_values) low -> v <= x).
  { intros v Hv.
    assert (Hok : stored_ok xor_values low v).
    { apply build_round_1_map_ok. by rewrite od_get_build, decide_True. }
    destruct Hok as (Hmod & Hin & Hbit). split.
    - apply highs_of_complete; auto. by apply elem_of_filter.
    - intros x Hx. pose proof Hx as Hx'.
      apply elem_of_highs_of in Hx as [[Hbx Hxin]%elem_of_filter (i & Hi & Hxi)].
      destruct (first_accepted_least xor_values low x) as (v' & Hv' & Hle & _).
      + by apply Hwords.
      + split_and!; [|done..]. subst x.
        replace (12 * low + 12 * (16384 * i - low)) with (3 * i * 0x10000) by lia.
        apply Z_mod_mult.
      + rewrite Hv in Hv'. injection Hv' as <-. lia. }
  destruct (first_accepted xor_values low) as [v|] eqn:Hfa.
  - destruct (Hsound v eq_refl) as [Hin Hmin].
    rewrite decide_True.
    + simpl. symmetry. apply head_least; [apply highs_of_ascending|done..].
    + split; [done|]. intros Hnil. rewrite Hnil in Hin. by apply elem_of_nil in Hin.
  - case_decide as Hne; [|done]. simpl.
    destruct (highs_of (no_egg xor_values) low) as [|x l] eqn:E; [done|]. exfalso.
    assert (Hx : x ∈ highs_of (no_egg xor_values) low) by (rewrite E; left).
    apply elem_of_highs_of in Hx as [[Hbx Hxin]%elem_of_filter (i & Hi & Hxi)].
    destruct (first_accepted_least xor_values low x) as (v' & Hv' & _).
    + by apply Hwords.
    + split_and!; [|done..]. subst x.
      replace (12 * low + 12 * (16384 * i - low)) with (3 * i * 0x10000) by lia.
      apply Z_mod_mult.
    + congruence.
Qed.

Lemma round_1_maps_agree_witness :
  od_get 0 (build_round_1_map {[ 0; 0x8000 ]})
  = od_get 0 (get_round_1 {[ 0; 0x8000 ]} (no_egg {[ 0; 0x8000 ]})) ≫= head.
Proof.
  apply round_1_maps_agree. intros x Hx.
  assert (x = 0 \/ x = 0x8000) as [-> | ->] by set_solver; lia.
Defined.

(** ** [main] of [PCHealSearcher.py] *)

Lemma od_mem_keys {V : Type} (k : Z) (d : list (Z * V)) :
  od_mem k d = true <-> k ∈ d.*1.
Proof.
  unfold od_mem. induction d as [|[k' v] d IH]; simpl.
  - split; [done|]. by intros ?%elem_of_nil.
  - rewrite elem_of_cons. case_decide as Hk; [subst; tauto|].
    rewrite IH. split; [tauto|]. intros [?|?]; [congruence|done].
Qed.

Lemma round_1_key_iff (key_lows key_highs : gset Z) (k : Z) :
  k ∈ (get_round_1 key_lows key_highs).*1
  <-> k ∈ key_lows /\ highs_of key_highs k <> [].
Proof.
  rewrite get_round_1_entries, entries_keys, list_elem_of_filter, elem_of_sorted. tauto.
Qed.

Lemma round_1_keys_NoDup (key_lows key_highs : gset Z) :
  NoDup (get_round_1 key_lows key_highs).*1.
Proof.
  rewrite get_round_1_entries, entries_keys. apply NoDup_filter, NoDup_sorted.
Qed.

(** X14. The three groups [main] reports split the xor values: the keys
    of [round_1], the keys of [round_2] and [round_3_needed] are pairwise
    disjoint and together are the whole set, so the two counts it prints
    and the number of listed species add up to the size of the set. *)
Theorem main_groups_partition (xor_values : gset Z) (move_pps : gmap Z Z) (r : report) :
  PCHealSearcher.main xor_values move_pps = Ret r ->
  let keys_1 : gset Z := list_to_set (report_round_1 r).*1 in
  let keys_2 : gset Z := dom (report_round_2 r) in
  keys_1 ## keys_2
  /\ round_3_needed r ## keys_1 ∪ keys_2
  /\ keys_1 ∪ keys_2 ∪ round_3_needed r = xor_values
  /\ (length (report_round_1 r) + size (report_round_2 r) + size (round_3_needed r)
      = size xor_values)%nat.
Proof.
  unfold PCHealSearcher.main.
  destruct (get_round_2 _ _ _ _) as [st| |] eqn:Hrun; simpl; [|done..].
  intros <-%Ret_inj. simpl.
  set (round_1 := get_round_1 xor_values (no_egg xor_values)) in *.
  assert (H1 : forall k, k ∈ round_1.*1 -> k ∈ xor_values).
  { intros k Hk. by apply round_1_key_iff in Hk as [? _]. }
  assert (H2 : forall k, k ∈ dom (round_2 st) -> k ∈ xor_values /\ k ∉ round_1.*1).
  { intros k Hk. apply (get_round_2_dom_requested _ _ _ _ _ Hrun) in Hk.
    apply list_elem_of_filter in Hk as [Hmem Hk%elem_of_elements]. split; [done|].
    intros Hin%od_mem_keys. congruence. }
  assert (Hdisj : (list_to_set round_1.*1 : gset Z) ## dom (round_2 st)).
  { intros k Hk1%elem_of_list_to_set Hk2. by apply H2 in Hk2 as [_ ?]. }
  assert (Hdisj3 : xor_values ∖ (list_to_set round_1.*1 ∪ dom (round_2 st))
                   ## (list_to_set round_1.*1 ∪ dom (round_2 st) : gset Z)).
  { intros k [_ Hn]%elem_of_difference Hk. done. }
  assert (Hunion : (list_to_set round_1.*1 ∪ dom (round_2 st)
                    ∪ xor_values ∖ (list_to_set round_1.*1 ∪ dom (round_2 st)) : gset Z)
                   = xor_values).
  { apply set_eq. intros k. rewrite !elem_of_union, elem_of_difference,
      elem_of_union, elem_of_list_to_set. split.
    - intros [[?|Hk]|[? _]]; [auto| |done]. by apply H2 in Hk as [? _].
    - intros Hk. destruct (decide (k ∈ round_1.*1)); [by left; left|].
      destruct (decide (k ∈ dom (round_2 st))); [by left; right|].
      right. split; [done|]. tauto. }
  split_and!; [done..|].
  rewrite <- Hunion at 2.
  rewrite (size_union (C := gset Z) _ _ (symmetry Hdisj3)).
  rewrite (size_union (C := gset Z) _ _ Hdisj).
  rewrite size_list_to_set by apply round_1_keys_NoDup.
  by rewrite length_fmap, size_dom.
Qed.

Lemma main_groups_partition_witness :
  exists r, PCHealSearcher.main {[ 0x4000; 5 ]} {[ 0x4000 := 35 ]} = Ret r
       /\ (length (report_round_1 r) + size (report_round_2 r) + size (round_3_needed r)
           = size ({[ 0x4000; 5 ]}%Z : gset Z))%nat.
Proof.
  destruct (PCHealSearcher.main {[ 0x4000; 5 ]} {[ 0x4000 := 35 ]}) as [r| |] eqn:Hrun;
    [|by vm_compute in Hrun..].
  exists r. split; [done|].
  exact (proj2 (proj2 (proj2 (main_groups_partition _ _ _ Hrun)))).
Defined.

(** X15. On a set of Words, [round_3_needed] lists exactly the xor values
    that no one-step and no two-step chain produces: the values [x] of
    the set for which no high of the set without bit 14 satisfies
    [(12*x + 12*high) mod 0x10000 = 0], and for which no round-1 pair
    with a low other than 0 and no such high solve the two-step
    equation. *)
Theorem round_3_needed_exactly (xor_values : gset Z) (move_pps : gmap Z Z)
    (r : report) (x : Z) :
  PCHealSearcher.main xor_values move_pps = Ret r ->
  (forall y, y ∈ xor_values -> 0 <= y < 2 ^ 16) ->
  x ∈ round_3_needed r
  <-> x ∈ xor_values
      /\ (forall high, high ∈ no_egg xor_values ->
            (12 * x + 12 * high) mod 0x10000 <> 0)
      /\ (forall low1 high1 base_low base_high high2,
            (low1, high1) ∈ round_1_pairs (get_round_1 xor_values xor_values) ->
            low1 <> 0 ->
            move_pps !! low1 = Some base_low ->
            move_pps !! high1 = Some base_high ->
            high2 ∈ no_egg xor_values ->
            ~ chain_equation (packed_low low1 base_low base_high)
                             (packed_high low1 base_low base_high)
                             low1 high1 x high2).
Proof.
  unfold PCHealSearcher.main.
  destruct (get_round_2 _ _ _ _) as [st| |] eqn:Hrun; simpl; [|done..].
  intros <-%Ret_inj Hwords. simpl.
  set (round_1 := get_round_1 xor_values (no_egg xor_values)) in *.
  assert (Hegg : forall h, h ∈ no_egg xor_values -> 0 <= h < 2 ^ 16).
  { intros h [_ Hh]%elem_of_filter. by apply Hwords. }
  rewrite elem_of_difference, elem_of_union, elem_of_list_to_set.
  unfold round_1. rewrite round_1_key_iff. fold round_1. split.
  - intros [Hx Hnot]. split_and!; [done| |].
    + intros high Hhigh Hmod. apply Hnot. left. split; [done|].
      assert (Hin : high ∈ highs_of (no_egg xor_values) x)
        by (apply highs_of_complete; auto).
      intros Hnil. rewrite Hnil in Hin. by apply elem_of_nil in Hin.
    + intros low1 high1 bl bh high2 Hpair Hlow1 Hbl Hbh Hhigh2 Heq.
      apply Hnot. right. apply elem_of_dom.
      apply (get_round_2_reaches _ _ _ _ _ low1 high1 bl bh x high2 Hrun); auto.
      apply list_elem_of_filter. split; [|by apply elem_of_elements].
      destruct (od_mem x round_1) eqn:Hmem; [|done]. exfalso.
      apply od_mem_keys, round_1_key_iff in Hmem. apply Hnot. by left.
  - intros (Hx & Hone & Htwo). split; [done|]. intros [[_ Hne]|Hdom].
    + destruct (highs_of (no_egg xor_values) x) as [|h l] eqn:E; [done|].
      assert (Hh : h ∈ highs_of (no_egg xor_values) x) by (rewrite E; left).
      apply elem_of_highs_of in Hh as [Hh (i & Hi & Hhi)].
      apply (Hone h Hh). subst h.
      replace (12 * x + 12 * (16384 * i - x)) with (3 * i * 0x10000) by lia.
      apply Z_mod_mult.
    + apply elem_of_dom in Hdom as [high2 Hhigh2].
      destruct (get_round_2_ok _ _ _ _ _ Hrun) as [_ Hok].
      destruct (Hok x high2 Hhigh2)
        as (low1 & high1 & bl & bh & _ & Hpair & Hlow1 & Hbl & Hbh & Hin & Heq).
      by apply (Htwo low1 high1 bl bh high2).
Qed.

Lemma round_3_needed_exactly_witness :
  exists r, PCHealSearcher.main {[ 0x4000; 5 ]} {[ 0x4000 := 35 ]} = Ret r
       /\ (5 ∈ round_3_needed r -> 5 ∈ ({[ 0x4000; 5 ]} : gset Z)).
Proof.
  destruct (PCHealSearcher.main {[ 0x4000; 5 ]} {[ 0x4000 := 35 ]}) as [r| |] eqn:Hrun;
    [|by vm_compute in Hrun..].
  exists r. split; [done|]. intros H5.
  apply (round_3_needed_exactly _ _ _ 5 Hrun) in H5; [by destruct H5|].
  clear Hrun. intros y [->%elem_of_singleton| ->%elem_of_singleton]%elem_of_union; lia.
Defined.

(** ** [write_results] and [main] of [1457_solver.py] *)

Lemma to_hex_fuel (f1 : nat) : forall (f2 : nat) (n : Z) (acc : string),
  0 <= n < 16 ^ Z.of_nat (S f1) -> 0 <= n < 16 ^ Z.of_nat (S f2) ->
  to_hex (S f1) n acc = to_hex (S f2) n acc.
Proof.
  induction f1 as [|f1 IH]; intros f2 n acc H1 H2; cbn [to_hex];
    (case_decide as Hq; [done|]).
  - exfalso. apply Hq. apply Z.div_small. change (16 ^ Z.of_nat 1) with 16 in H1. lia.
  - destruct f2 as [|f2].
    + exfalso. apply Hq. apply Z.div_small. change (16 ^ Z.of_nat 1) with 16 in H2. lia.
    + apply IH.
      * rewrite (Nat2Z.inj_succ (S f1)), Z.pow_succ_r in H1 by lia.
        split; [apply Z.div_pos; lia|apply Z.div_lt_upper_bound; lia].
      * rewrite (Nat2Z.inj_succ (S f2)), Z.pow_succ_r in H2 by lia.
        split; [apply Z.div_pos; lia|apply Z.div_lt_upper_bound; lia].
Qed.

Lemma hex_fuel (n : Z) (fuel : nat) :
  0 <= n < 16 ^ Z.of_nat (S fuel) -> hex n = to_hex (S fuel) n "".
Proof.
  intros Hn. unfold hex. apply to_hex_fuel; [|done]. split; [lia|].
  destruct (decide (n = 0)) as [->|Hn0]; [simpl; lia|].
  pose proof (Z.log2_spec n ltac:(lia)) as [_ Hlt].
  pose proof (Z.log2_nonneg n) as Hlog.
  rewrite Nat2Z.inj_succ, Z2Nat.id by done.
  apply Z.lt_le_trans with (2 ^ Z.succ (Z.log2 n)); [done|].
  apply Z.pow_le_mono_l. lia.
Qed.

(** The four characters of a Word, most significant nibble first. *)
Lemma format_04X_word (x : Z) :
  0 <= x < 2 ^ 16 ->
  format_04X x
  = String (hex_digit (x / 16 / 16 / 16 mod 16))
      (String (hex_digit (x / 16 / 16 mod 16))
         (String (hex_digit (x / 16 mod 16))
            (String (hex_digit (x mod 16)) ""))).
Proof.
  intros Hx. unfold format_04X. rewrite decide_False by lia.
  rewrite (hex_fuel x 3) by (change (16 ^ Z.of_nat 4) with (2 ^ 16); lia).
  cbn [to_hex].
  destruct (decide (x / 16 = 0)) as [H1|H1]; [by rewrite H1|].
  destruct (decide (x / 16 / 16 = 0)) as [H2|H2]; [by rewrite H2|].
  destruct (decide (x / 16 / 16 / 16 = 0)) as [H3|H3]; [by rewrite H3|].
  assert (x / 16 / 16 / 16 / 16 = 0).
  { rewrite !Z.div_div by lia. apply Z.div_small. change (2 ^ 16) with 65536 in Hx. lia. }
  by rewrite decide_True.
Qed.

Lemma hex_digit_inj (a b : Z) :
  0 <= a < 16 -> 0 <= b < 16 -> hex_digit a = hex_digit b -> a = b.
Proof.
  intros Ha Hb.
  assert (Hca : a = 0 \/ a = 1 \/ a = 2 \/ a = 3 \/ a = 4 \/ a = 5 \/ a = 6 \/ a = 7
                \/ a = 8 \/ a = 9 \/ a = 10 \/ a = 11 \/ a = 12 \/ a = 13 \/ a = 14
                \/ a = 15) by lia.
  assert (Hcb : b = 0 \/ b = 1 \/ b = 2 \/ b = 3 \/ b = 4 \/ b = 5 \/ b = 6 \/ b = 7
                \/ b = 8 \/ b = 9 \/ b = 10 \/ b = 11 \/ b = 12 \/ b = 13 \/ b = 14
                \/ b = 15) by lia.
  clear Ha Hb.
  repeat (destruct Hca as [->|Hca]); try subst a;
    repeat (destruct Hcb as [->|Hcb]); try subst b;
    first [reflexivity | discriminate].
Qed.

(** X16. [f"{x:04X}"] of a Word is exactly four characters, its four
    nibbles in upper-case hexadecimal with the most significant first,
    and different Words give different fields. *)
Theorem format_04X_words (x y : Z) :
  0 <= x < 2 ^ 16 -> 0 <= y < 2 ^ 16 ->
  String.length (format_04X x) = 4%nat
  /\ format_04X x
     = String (hex_digit (x / 16 / 16 / 16 mod 16))
         (String (hex_digit (x / 16 / 16 mod 16))
            (String (hex_digit (x / 16 mod 16))
               (String (hex_digit (x mod 16)) "")))
  /\ (format_04X x = format_04X y -> x = y).
Proof.
  intros Hx Hy. rewrite !format_04X_word by done. split_and!; [done..|].
  intros [= H3 H2 H1 H0].
  apply hex_digit_inj in H3, H2, H1, H0; try (apply Z.mod_pos_bound; lia).
  change (2 ^ 16) with 65536 in *.
  pose proof (Z.div_mod x 16 ltac:(lia)). pose proof (Z.div_mod (x / 16) 16 ltac:(lia)).
  pose proof (Z.div_mod (x / 16 / 16) 16 ltac:(lia)).
  pose proof (Z.div_mod (x / 16 / 16 / 16) 16 ltac:(lia)).
  pose proof (Z.div_mod y 16 ltac:(lia)). pose proof (Z.div_mod (y / 16) 16 ltac:(lia)).
  pose proof (Z.div_mod (y / 16 / 16) 16 ltac:(lia)).
  pose proof (Z.div_mod (y / 16 / 16 / 16) 16 ltac:(lia)).
  assert (x / 16 / 16 / 16 / 16 = 0)
    by (rewrite !Z.div_div by lia; apply Z.div_small; lia).
  assert (y / 16 / 16 / 16 / 16 = 0)
    by (rewrite !Z.div_div by lia; apply Z.div_small; lia).
  lia.
Qed.

Lemma format_04X_words_witness :
  String.length (format_04X 0x00FF) = 4%nat /\ format_04X 0x00FF = "00FF"%string.
Proof.
  destruct (format_04X_words 0x00FF 0x00FF) as (Hlen & Hfmt & _); [lia..|].
  split; [exact Hlen|exact Hfmt].
Defined.

Lemma elem_of_od_set {V : Type} (k : Z) (v : V) (d : list (Z * V)) (x : Z * V) :
  x ∈ od_set k v d -> x = (k, v) \/ x ∈ d.
Proof.
  induction d as [|[k' v'] d IH]; simpl.
  - intros ->%list_elem_of_singleton. by left.
  - case_decide.
    + intros [->|?]%elem_of_cons; [by left|right; by right].
    + intros [->|Hx]%elem_of_cons; [right; by left|].
      destruct (IH Hx) as [->|?]; [by left|right; by right].
Qed.

Lemma od_get_elem_of {V : Type} (k : Z) (v : V) (d : list (Z * V)) :
  od_get k d = Some v -> (k, v) ∈ d.
Proof.
  induction d as [|[k' v'] d IH]; simpl; [done|].
  case_decide as Hk; [intros [= ->]; subst; by left|]. intros H. right. auto.
Qed.

Lemma build_round_1_map_items (xor_values : gset Z) (k v : Z) :
  (k, v) ∈ build_round_1_map xor_values ->
  k ∈ xor_values /\ stored_ok xor_values k v /\ 0 <= v < 2 ^ 16.
Proof.
  unfold build_round_1_map.
  assert (H : forall lows d,
    (forall x, x ∈ lows -> x ∈ xor_values) ->
    (forall k v, (k, v) ∈ d ->
       k ∈ xor_values /\ stored_ok xor_values k v /\ 0 <= v < 2 ^ 16) ->
    forall k v, (k, v) ∈ fold_left
        (fun checksum_map xor_value =>
           let remainder := Z.land (0x10000 - (xor_value * 12)) 0xFFFF in
           probe_first xor_values xor_value (range remainder 0xC0000 0x10000) checksum_map)
        lows d ->
      k ∈ xor_values /\ stored_ok xor_values k v /\ 0 <= v < 2 ^ 16).
  { induction lows as [|low lows IH]; intros d Hl Hd; [done|].
    rewrite fold_left_cons_eq. apply IH; [intros; apply Hl; by right|].
    cbn zeta. rewrite probe_first_find. intros k' v'.
    destruct (find _ _) as [i|] eqn:Hfind; [|apply Hd].
    intros [[= -> ->]|Hin]%elem_of_od_set; [|by apply Hd].
    apply find_some in Hfind as [Hi Hacc]. apply list_elem_of_In in Hi.
    apply elem_of_range in Hi as (j & Hj & Hij & Hlt); [|lia].
    split_and!; [apply Hl; by left|by apply (accepts_stored_ok _ _ _ j)| |].
    - change 0xFFFF with (Z.ones 16) in Hij. rewrite Z.land_ones in Hij by lia.
      pose proof (Z.mod_pos_bound (0x10000 - low * 12) (2 ^ 16) ltac:(lia)).
      apply Z.div_pos; lia.
    - apply Z.div_lt_upper_bound; lia. }
  apply H; [intros x; apply elem_of_sorted|]. intros k' v' Hin. by apply elem_of_nil in Hin.
Qed.

Lemma land_one_hot_cases (x k : Z) :
  0 <= k -> Z.land x (2 ^ k) = 0 \/ Z.land x (2 ^ k) = 2 ^ k.
Proof.
  intros Hk. destruct (Z.testbit x k) eqn:Hb; [right|left];
    apply Z.bits_inj'; intros n Hn;
    rewrite Z.land_spec, ?Z.bits_0, Z.pow2_bits_eqb by lia;
    (destruct (Z.eqb_spec k n) as [->|]; [by rewrite Hb|apply andb_false_r]).
Qed.

(** The test of line 53 in arithmetic: the first pair's [key_high] is
    positive and cancels the second message's checksum. *)
Lemma second_ok_sum (target_species key_high c : Z) :
  second_ok target_species key_high c ->
  Z.land c 0x4000 = 0
  /\ 0 < key_high <= 2 ^ 16
  /\ (12 * target_species + 11 * c + Z.lxor c key_high + key_high) mod 0x10000 = 0.
Proof.
  intros [Hegg Hsum].
  destruct (land_one_hot_cases c 14 ltac:(lia)) as [H0|H1]; [|done].
  change MASK_16 with (Z.ones 16) in Hsum. rewrite Z.land_ones in Hsum by lia.
  change (Z.shiftl 1 16) with (2 ^ 16) in Hsum.
  pose proof (Z.mod_pos_bound (target_species * 12 + c * 11 + Z.lxor c key_high)
                (2 ^ 16) ltac:(lia)) as Hr.
  pose proof (Z.div_mod (target_species * 12 + c * 11 + Z.lxor c key_high)
                (2 ^ 16) ltac:(lia)) as Hd.
  split_and!; [done|lia|lia|]. change (2 ^ 16) with 0x10000 in *.
  replace (12 * target_species + 11 * c + Z.lxor c key_high + key_high)
    with ((1 + (target_species * 12 + c * 11 + Z.lxor c key_high) / 0x10000) * 0x10000)
    by lia.
  apply Z_mod_mult.
Qed.

(** X17. Every chain [main] of [1457_solver.py] writes is a solution.
    Its first pair [(low, high)] comes from the round-1 map: [low] and
    [high] are xor values, [high] is a Word without bit 14 and
    [(12*low + 12*high) mod 0x10000 = 0].  A chain of length 1 is that
    pair for the target; in a chain of length 2 the second pair is
    [(target, c)] with [c] an xor value without bit 14, [high] is not 0
    and [(12*target + 11*c + (c XOR high) + high) mod 0x10000 = 0]. *)
Theorem main_chains_valid (target_species : Z) (xor_values : gset Z)
    (results : list (list (Z * Z))) (msg : list (Z * Z)) :
  calc_messages target_species xor_values (build_round_1_map xor_values) = Ret results ->
  msg ∈ results ->
  exists low high,
    low ∈ xor_values /\ high ∈ xor_values
    /\ 0 <= high < 2 ^ 16 /\ Z.land high 0x4000 = 0
    /\ (12 * low + 12 * high) mod 0x10000 = 0
    /\ ((low = target_species /\ msg = [(low, high)])
        \/ exists c, msg = [(low, high); (target_species, c)]
                /\ c ∈ xor_values /\ Z.land c 0x4000 = 0
                /\ high <> 0
                /\ (12 * target_species + 11 * c + Z.lxor c high + high) mod 0x10000 = 0).
Proof.
  intros Hrun Hmsg. apply (elem_of_calc_messages _ _ _ _ Hrun) in Hmsg.
  destruct Hmsg as [(h & Hget & ->)|(kl & kh & c & Hitem & Hc & Hegg & Hsum & ->)].
  - apply od_get_elem_of, build_round_1_map_items in Hget
      as (Hkey & (Hmod & Hin & Hbit) & Hword).
    exists target_species, h. do 5 (split; [done|]). by left.
  - apply build_round_1_map_items in Hitem as (Hkl & (Hmod & Hin & Hbit) & Hword).
    destruct (second_ok_sum target_species kh c) as (Hc0 & Hpos & Hzero); [done|].
    exists kl, kh. do 5 (split; [done|]). right. exists c.
    do 3 (split; [done|]). split; [lia|done].
Qed.

Lemma main_chains_valid_witness :
  exists low high, low ∈ ({[ 0; 0x8000 ]} : gset Z)
              /\ [(0x8000, 0)] = [(low, high)].
Proof.
  assert (H : calc_messages 0x8000 {[ 0; 0x8000 ]} (build_round_1_map {[ 0; 0x8000 ]})
              = Ret [[(0x8000, 0)]]) by (vm_compute; reflexivity).
  destruct (main_chains_valid _ _ _ [(0x8000, 0)] H) as (low & high & Hl & _ & _ & _ & _ & Hm).
  - by left.
  - exists low, high. split; [exact Hl|]. destruct Hm as [[_ ?]|(c & ? & _)]; done.
Defined.

(** X18. On a set of Words [main] of [1457_solver.py] writes the header
    and one row per chain, in the order of the chains; a row has two
    fields for a chain of length 1 and four for a chain of length 2, and
    every field is exactly four characters long. *)
Theorem main_rows_well_formed (target_species : Z) (xor_values : gset Z)
    (rows : list (list string)) :
  Solver.main target_species xor_values = Ret rows ->
  (forall y, y ∈ xor_values -> 0 <= y < 2 ^ 16) ->
  exists results,
    calc_messages target_species xor_values (build_round_1_map xor_values) = Ret results
    /\ rows = ["Mail 1 Key Low"; "Mail 1 Key High";
               "Mail 2 Key Low"; "Mail 2 Key High"]%string
              :: (result_row <$> results)
    /\ Forall2 (fun result row =>
                 length row = (2 * length result)%nat
                 /\ (length result = 1 \/ length result = 2)%nat
                 /\ Forall (fun field => String.length field = 4%nat) row)
              results (result_row <$> results).
Proof.
  unfold Solver.main. intros Hrun Hwords.
  destruct (calc_messages _ _ _) as [results| |] eqn:Hcalc; simpl in Hrun; [|done..].
  apply Ret_inj in Hrun as <-. exists results. split_and!; [done..|].
  apply Forall2_fmap_r, Forall2_same_length_lookup_2; [done|].
  intros i msg msg' Hmsg Hmsg'. rewrite Hmsg in Hmsg'. injection Hmsg' as <-.
  assert (Hin : msg ∈ results) by (by eapply list_elem_of_lookup_2).
  assert (Hlen : forall w, 0 <= w < 2 ^ 16 -> String.length (format_04X w) = 4%nat)
    by (intros w Hw; by rewrite format_04X_word).
  assert (Htarget : 0 <= target_species < 2 ^ 16).
  { apply Hwords. unfold calc_messages in Hcalc. by case_decide. }
  apply (elem_of_calc_messages _ _ _ _ Hcalc) in Hin.
  destruct Hin as [(h & Hget & ->)|(kl & kh & c & Hitem & Hc & _ & _ & ->)].
  - apply od_get_elem_of, build_round_1_map_items in Hget as (_ & _ & Hword).
    split_and!; [done|by left|]. repeat constructor; by apply Hlen.
  - apply build_round_1_map_items in Hitem as (Hkl & _ & Hword).
    split_and!; [done|by right|]. repeat constructor; apply Hlen; auto.
Qed.

Lemma main_rows_well_formed_witness :
  exists results,
    Solver.main 0x8000 {[ 0; 0x8000 ]}
    = Ret (["Mail 1 Key Low"; "Mail 1 Key High";
            "Mail 2 Key Low"; "Mail 2 Key High"]%string
           :: (result_row <$> results)).
Proof.
  destruct (Solver.main 0x8000 {[ 0; 0x8000 ]}) as [rows| |] eqn:Hrun;
    [|by vm_compute in Hrun..].
  destruct (main_rows_well_formed _ _ _ Hrun) as (results & _ & -> & _).
  - clear Hrun. intros y [->%elem_of_singleton| ->%elem_of_singleton]%elem_of_union; lia.
  - by exists results.
Defined.

(** ** The bit loop reads 16 bits *)

Lemma equation_mask_mod (m s : Z) (k : nat) :
  (k < 16)%nat ->
  equation (m mod 2 ^ 16) s mod 2 ^ (Z.of_nat k + 1)
  = equation m s mod 2 ^ (Z.of_nat k + 1).
Proof.
  intros Hk. unfold equation.
  assert (Hdiv : (2 ^ (Z.of_nat k + 1) | 2 ^ 16)).
  { exists (2 ^ (16 - (Z.of_nat k + 1))). rewrite <- Z.pow_add_r by lia. f_equal. lia. }
  assert (Hpos : 0 < 2 ^ (Z.of_nat k + 1)) by (apply Z.pow_pos_nonneg; lia).
  rewrite <- (Z.add_mod_idemp_r (11 * s) (Z.lxor (m mod 2 ^ 16) s)) by lia.
  rewrite <- (Z.add_mod_idemp_r (11 * s) (Z.lxor m s)) by lia.
  rewrite !(lxor_mod _ s) by lia. by rewrite (Z.mod_mod_divide m _ _ Hdiv).
Qed.

Lemma kept_low_bits (m a : Z) (k : nat) (s : Z) :
  (k < 16)%nat -> kept (m mod 2 ^ 16) (a mod 2 ^ 16) k s = kept m a k s.
Proof.
  intros Hk. unfold kept. rewrite equation_mask_mod by done.
  assert (Hdiv : (2 ^ (Z.of_nat k + 1) | 2 ^ 16)).
  { exists (2 ^ (16 - (Z.of_nat k + 1))). rewrite <- Z.pow_add_r by lia. f_equal. lia. }
  by rewrite (Z.mod_mod_divide a _ _ Hdiv).
Qed.

Lemma carried_low_bits (m a : Z) (k : nat) :
  (k <= 16)%nat -> carried (m mod 2 ^ 16) (a mod 2 ^ 16) k = carried m a k.
Proof.
  induction k as [|k IH]; intros Hk; [done|].
  destruct (carried_spec (m mod 2 ^ 16) (a mod 2 ^ 16) k) as (_ & _ & ->).
  destruct (carried_spec m a k) as (_ & _ & ->).
  rewrite IH by lia. apply list_bind_ext; [|done].
  intros s. apply kept_low_bits. lia.
Qed.

(** X19. The bit loop reads the low 16 bits of the target and of the
    mask only: any integers, the negative residual that [get_round_2]
    may pass among them, give the same list, in the same order, as
    their remainders modulo 0x10000. *)
Theorem solver_reads_low_16_bits (m a : Z) :
  solve_bits m a = solve_bits (m mod 2 ^ 16) (a mod 2 ^ 16).
Proof. rewrite !solve_bits_carried. by rewrite carried_low_bits. Qed.

Lemma ascending_NoDup (l : list Z) : StronglySorted Z.lt l -> NoDup l.
Proof.
  induction 1 as [|x l Hl IH Hx]; constructor; [|done].
  rewrite Forall_forall in Hx. intros Hin. specialize (Hx x Hin). lia.
Qed.

(** X21. An entry of the dictionary [get_round_1] returns holds at most
    8 highs, one per walked checksum total, and none twice. *)
Theorem round_1_entry_at_most_8 (key_lows key_highs : gset Z) (low : Z) (highs : list Z) :
  od_get low (get_round_1 key_lows key_highs) = Some highs ->
  (1 <= length highs <= 8)%nat /\ NoDup highs.
Proof.
  rewrite od_get_round_1. case_decide as Hk; [|done]. intros [= <-].
  destruct Hk as [_ Hne]. split_and!.
  - destruct (highs_of key_highs low); [done|simpl; lia].
  - unfold highs_of. etrans; [apply length_filter|].
    by rewrite length_fmap, checksum_totals, length_fmap, length_seqZ.
  - apply ascending_NoDup, highs_of_ascending.
Qed.

Lemma round_1_entry_at_most_8_witness :
  (1 <= length ([0; 0x4000]%Z : list Z) <= 8)%nat /\ NoDup [0; 0x4000].
Proof.
  apply (round_1_entry_at_most_8 {[ 0; 5; 0x2000 ]} {[ 0; 0x2000; 0x4000 ]} 0).
  vm_compute. reflexivity.
Defined.

(** ** The first pair that can solve a [low2] is its source *)

Lemma solve_pairs_reach (key_lows : list Z) (key_highs : gset Z) (move_pps : gmap Z Z)
    (l : list (Z * Z)) (st final : maps)
    (low1 high1 base_low base_high low2 high2 : Z) :
  for_each (solve_pair key_lows key_highs move_pps) l st = Ret final ->
  (low1, high1) ∈ l ->
  low1 <> 0 ->
  move_pps !! low1 = Some base_low ->
  move_pps !! high1 = Some base_high ->
  low2 ∈ key_lows ->
  high2 ∈ key_highs ->
  0 <= high2 < 2 ^ 16 ->
  chain_equation (packed_low low1 base_low base_high)
                 (packed_high low1 base_low base_high) low1 high1 low2 high2 ->
  low2 ∈ dom (round_2 final).
Proof.
  intros Hrun Hpair Hlow1 Hbl Hbh Hlow2 Hhigh2 Hword Heq. revert Hrun.
  apply (for_each_reaches (fun s => low2 ∈ dom (round_2 s)) _ (low1, high1)); [done| |].
  - intros s0 s1.
    destruct (solve_pair_cases key_lows key_highs move_pps s0 low1 high1)
      as [[? _]|[(_ & ? & _)|[(_ & _ & ? & _)|(_ & bl & bh & s & Hbl' & Hbh' & -> & Hin)]]];
      [congruence..|].
    intros <-%Ret_inj. rewrite Hbl in Hbl'. rewrite Hbh in Hbh'.
    injection Hbl' as <-. injection Hbh' as <-. revert Hin.
    apply (for_each_reaches (fun s => low2 ∈ dom (round_2 s)) _ low2); [done| |].
    + intros s1 s2. rewrite solve_low2_unfold. case_decide; intros <-%Ret_inj; [done|].
      apply (record_solution_hits _ _ _ _ high2); [|done].
      apply (carried_spec _ _ 16). split; [done|].
      unfold chain_equation, equation in *. change (Z.of_nat 16) with 16.
      match goal with |- _ = (?c - ?a - ?b) mod _ =>
        replace (c - a - b)
          with (11 * low1 + 11 * high1 + packed_low low1 base_low base_high
                + packed_high low1 base_low base_high - (a + b)) by lia end.
      apply mod_sub_cancel. rewrite <- Heq. f_equal. lia.
    + intros s1 y s2. apply solve_low2_keeps.
  - intros s0 pair s1. apply solve_pair_keeps.
Qed.

Lemma round_1_pairs_NoDup (key_lows key_highs : gset Z) :
  NoDup (round_1_pairs (get_round_1 key_lows key_highs)).
Proof.
  unfold round_1_pairs. rewrite get_round_1_entries.
  assert (Hent : forall k hs, (k, hs) ∈ sorted key_lows ≫= round_1_entry key_highs ->
            hs = highs_of key_highs k).
  { intros k hs (l & Hin & _)%list_elem_of_bind. unfold round_1_entry in Hin.
    destruct (highs_of key_highs l) eqn:E; [by apply elem_of_nil in Hin|].
    apply list_elem_of_singleton in Hin as [= -> ->]. by rewrite E. }
  apply NoDup_bind.
  - intros [k1 hs1] [k2 hs2] [a b] H1 H2
      (h1 & [= -> ->]%list_elem_of_singleton & _)%list_elem_of_bind
      (h2 & [= -> ->]%list_elem_of_singleton & _)%list_elem_of_bind.
    apply Hent in H1, H2. congruence.
  - intros [k hs] Hin. apply Hent in Hin as ->. apply NoDup_bind.
    + intros h1 h2 y _ _ [= ->]%list_elem_of_singleton [= ?]%list_elem_of_singleton.
      done.
    + intros h _. apply NoDup_singleton.
    + apply ascending_NoDup, highs_of_ascending.
  - apply (NoDup_fmap_1 fst). rewrite entries_keys. apply NoDup_filter, NoDup_sorted.
Qed.

Lemma first_pair_wins (xor_values : gset Z) (key_lows : list Z) (key_highs : gset Z)
    (move_pps : gmap Z Z) (final : maps) (before after : list (Z * Z))
    (low1 high1 low2 : Z) :
  get_round_2 xor_values key_lows key_highs move_pps = Ret final ->
  round_2_to_round_1 final !! low2 = Some (low1, high1) ->
  round_1_pairs (get_round_1 xor_values xor_values) = before ++ (low1, high1) :: after ->
  forall low1' high1' base_low base_high high2,
    (low1', high1') ∈ before ->
    low1' <> 0 ->
    move_pps !! low1' = Some base_low ->
    move_pps !! high1' = Some base_high ->
    high2 ∈ key_highs ->
    0 <= high2 < 2 ^ 16 ->
    ~ chain_equation (packed_low low1' base_low base_high)
                     (packed_high low1' base_low base_high) low1' high1' low2 high2.
Proof.
  intros Hrun Hback Hsplit low1' high1' bl bh high2 Hearlier Hlow1' Hbl Hbh Hin Hword Heq.
  pose proof (round_1_pairs_NoDup xor_values xor_values) as Hnd.
  pose proof (get_round_2_ok _ _ _ _ _ Hrun) as [Hkeys _].
  assert (Hlow2 : low2 ∈ key_lows).
  { apply (get_round_2_dom_requested _ _ _ _ _ Hrun). apply elem_of_dom. by eexists. }
  unfold get_round_2 in Hrun. rewrite Hsplit in Hrun, Hnd.
  rewrite for_each_app in Hrun.
  destruct (for_each (solve_pair key_lows key_highs move_pps) before (Maps ∅ ∅))
    as [mid| |] eqn:Hmid; cbn [bind] in Hrun; [|done..].
  pose proof (solve_pairs_ok key_lows key_highs move_pps before before _ _
                ltac:(done) empty_same_keys
                ltac:(intros ? ?; simpl; by rewrite lookup_empty) Hmid)
    as [Hkm Hokm].
  pose proof (solve_pairs_extends key_lows key_highs move_pps _ _ _ Hkm Hrun)
    as [[_ Hsub] _].
  assert (Hdom : low2 ∈ dom (round_2 mid))
    by (by apply (solve_pairs_reach _ _ _ _ _ _ low1' high1' bl bh low2 high2 Hmid)).
  apply elem_of_dom in Hdom as [h Hh].
  destruct (Hokm low2 h Hh) as (l1 & h1 & _ & _ & Hsrc & Hmem & _).
  apply (lookup_weaken _ _ _ _ Hsrc) in Hsub. rewrite Hback in Hsub.
  injection Hsub as -> ->.
  apply NoDup_app in Hnd as (_ & Hnot & _). apply (Hnot _ Hmem). by left.
Qed.

(** X20. The back-reference of a recorded [low2] is the first round-1
    pair, in the order [get_round_2] walks them, that can solve it: for
    no pair walked before the recorded one, with a low other than 0,
    does a Word of [key_highs] satisfy the two-step equation for
    [low2]. *)
Theorem first_matching_pair_wins (xor_values : gset Z) (key_lows : list Z)
    (key_highs : gset Z) (move_pps : gmap Z Z) (final : maps)
    (before after : list (Z * Z)) (low1 high1 low2 : Z) :
  get_round_2 xor_values key_lows key_highs move_pps = Ret final ->
  round_2_to_round_1 final !! low2 = Some (low1, high1) ->
  round_1_pairs (get_round_1 xor_values xor_values) = before ++ (low1, high1) :: after ->
  NoDup (round_1_pairs (get_round_1 xor_values xor_values))
  /\ forall low1' high1' base_low base_high high2,
      (low1', high1') ∈ before ->
      low1' <> 0 ->
      move_pps !! low1' = Some base_low ->
      move_pps !! high1' = Some base_high ->
      high2 ∈ key_highs ->
      0 <= high2 < 2 ^ 16 ->
      ~ chain_equation (packed_low low1' base_low base_high)
                       (packed_high low1' base_low base_high) low1' high1' low2 high2.
Proof.
  intros Hrun Hback Hsplit. split; [apply round_1_pairs_NoDup|].
  exact (first_pair_wins xor_values key_lows key_highs move_pps final before after
           low1 high1 low2 Hrun Hback Hsplit).
Qed.

Lemma first_matching_pair_wins_witness :
  ~ chain_equation (packed_low 0x4000 35 10) (packed_high 0x4000 35 10)
                   0x4000 0 0x4000 0x2580.
Proof.
  assert (Hrun : get_round_2 {[ 0; 0x4000 ]} [0x4000] {[ 0x2580 ]} {[ 0 := 10; 0x4000 := 35 ]}
                 = Ret (Maps {[ 0x4000 := 0x2580 ]} {[ 0x4000 := (0x4000, 0x4000) ]}))
    by (vm_compute; reflexivity).
  assert (Hsplit : round_1_pairs (get_round_1 {[ 0; 0x4000 ]} {[ 0; 0x4000 ]})
                   = [(0, 0); (0, 0x4000); (0x4000, 0)] ++ (0x4000, 0x4000) :: [])
    by (vm_compute; reflexivity).
  refine (proj2 (first_matching_pair_wins _ _ _ _ _ _ _ _ _ 0x4000 Hrun _ Hsplit)
            0x4000 0 35 10 0x2580 _ _ _ _ _ _).
  - reflexivity.
  - right; right; left.
  - lia.
  - reflexivity.
  - reflexivity.
  - by apply elem_of_singleton.
  - lia.
Defined.
